(** * mediasoup-handler: Transport, SendTransport and RecvTransport

    A shallow embedding of [src/Transport.ts], [src/SendTransport.ts] and
    [src/RecvTransport.ts].  The transport object, the objects it is
    handed by reference and the calls that leave it (adapter calls,
    queue submissions, notifications) are explicit state; every exposed
    method is a computation in a small state-and-exception monad. *)

From stdpp Require Import base option list strings pretty gmap fin_maps.
From Stdlib Require Import ZArith Lia.

Local Open Scope string_scope.
Local Open Scope Z_scope.
Local Open Scope list_scope.

(** ** JavaScript values

    Caller input reaches the transport untyped at run time, so the
    checks of the source ([typeof], [Array.isArray], truthiness) are
    embedded over a value universe.  Numbers are the integral ones. *)

#[local] Set Warnings "-register-all".
Inductive JsValue : Type :=
| JsUndefined
| JsNull
| JsBool (b : bool)
| JsNumber (n : Z)
| JsString (s : string)
| JsArray (items : list JsValue)
| JsObject (fields : list (string * JsValue)).
#[local] Set Warnings "register-all".

Global Instance JsValue_inhabited : Inhabited JsValue := populate JsUndefined.

Inductive JsType : Type :=
| TyUndefined | TyObject | TyBoolean | TyNumber | TyString.

Definition typeof (v : JsValue) : JsType :=
  match v with
  | JsUndefined => TyUndefined
  | JsNull | JsArray _ | JsObject _ => TyObject
  | JsBool _ => TyBoolean
  | JsNumber _ => TyNumber
  | JsString _ => TyString
  end.

(** [ToBoolean]: what [if (v)], [!v] and [a || b] look at. *)
Definition truthy (v : JsValue) : bool :=
  match v with
  | JsUndefined | JsNull => false
  | JsBool b => b
  | JsNumber n => negb (n =? 0)
  | JsString s => negb (String.eqb s "")
  | JsArray _ | JsObject _ => true
  end.

Definition isArray (v : JsValue) : bool :=
  match v with JsArray _ => true | _ => false end.

(** [typeof v === 'string'], ['boolean'], ['number'] *)
Definition is_string (v : JsValue) : bool :=
  match typeof v with TyString => true | _ => false end.

Definition is_boolean (v : JsValue) : bool :=
  match typeof v with TyBoolean => true | _ => false end.

Definition is_number (v : JsValue) : bool :=
  match typeof v with TyNumber => true | _ => false end.

(** A default parameter value ([ordered = true], [label = '']) replaces
    [undefined] only. *)
Definition or_default (v d : JsValue) : JsValue :=
  match v with JsUndefined => d | _ => v end.

Fixpoint assoc (k : string) (fs : list (string * JsValue)) : JsValue :=
  match fs with
  | [] => JsUndefined
  | (k', v) :: fs' => if String.eqb k k' then v else assoc k fs'
  end.

(** ** Failures *)

Inductive Error : Type :=
| InvalidStateError (message : string)
| UnsupportedError (message : string)
| TypeError (message : string)
| AwaitQueueStoppedError
| HandlerFailure (message : string).

(** The classes of failure the specification has callers meet before a
    submission. *)
Inductive Failure : Type := Closed | Unsupported | BadArgument.

Definition failure_class (e : Error) : option Failure :=
  match e with
  | InvalidStateError m => if String.eqb m "closed" then Some Closed else None
  | UnsupportedError _ => Some Unsupported
  | TypeError _ => Some BadArgument
  | _ => None
  end.

Inductive Res (A : Type) : Type :=
| Ok (a : A)
| Throw (e : Error).
Arguments Ok {A} a.
Arguments Throw {A} e.

(** Property read [o.k]: reading through [undefined] or [null] throws. *)
Definition get (o : JsValue) (k : string) : Res JsValue :=
  match o with
  | JsUndefined | JsNull =>
      Throw (TypeError "cannot read properties of undefined or null")
  | JsObject fs => Ok (assoc k fs)
  | _ => Ok JsUndefined
  end.

(** [String(v)], as a template literal renders a value. *)
Fixpoint js_toString (v : JsValue) : string :=
  match v with
  | JsUndefined => "undefined"
  | JsNull => "null"
  | JsBool b => if b then "true" else "false"
  | JsNumber n => pretty n
  | JsString s => s
  | JsArray items =>
      (fix join (l : list JsValue) : string :=
         let item x :=
           match x with
           | JsUndefined | JsNull => ""
           | _ => js_toString x
           end in
         match l with
         | [] => ""
         | [x] => item x
         | x :: l' => item x +:+ "," +:+ join l'
         end) items
  | JsObject _ => "[object Object]"
  end.

Fixpoint mapM_res {A B} (f : A -> Res B) (l : list A) : Res (list B) :=
  match l with
  | [] => Ok []
  | x :: l' =>
      match f x with
      | Throw e => Throw e
      | Ok y => match mapM_res f l' with
                | Throw e => Throw e
                | Ok ys => Ok (y :: ys)
                end
      end
  end.

(** ** The command queue

    [AwaitQueue] comes from the package [awaitqueue]; only its uses are
    part of the sources. *)

Module AwaitQueue.

Section Queue.
Context {T : Type}.

(** Modelled from the spec: the AwaitQueue class (section 4.1, Command
    Queue Serializer).  Tasks wait in submission order, at most one
    is executing, and a stopped queue accepts nothing. *)
Record t : Type := Build {
  waiting : list T;
  running : option T;
  stopped : bool
}.

Definition empty : t :=
  {| waiting := []; running := None; stopped := false |}.

(** What the environment does to a queue. *)
Inductive input : Type :=
| Push (x : T)
| Settle (ok : bool)
| Stop.

(** What can be observed: a task entering and leaving execution,
    and a submission failing with the stopped error. *)
Inductive obs : Type :=
| Begin (x : T)
| End (x : T) (ok : bool)
| RejectStopped (x : T).

(** Modelled from the spec: [push].  A stopped queue rejects at once;
    an idle queue starts the task; a busy one appends it. *)
Definition push (x : T) (q : t) : t * list obs :=
  if stopped q then (q, [RejectStopped x])
  else match running q, waiting q with
       | None, [] =>
           ({| waiting := []; running := Some x; stopped := false |},
            [Begin x])
       | _, _ =>
           ({| waiting := waiting q ++ [x]; running := running q;
               stopped := false |}, [])
       end.

(** Modelled from the spec: the executing task settles, with success
    or failure; only then does the next waiting task begin. *)
Definition settle (ok : bool) (q : t) : t * list obs :=
  match running q with
  | None => (q, [])
  | Some x =>
      match waiting q with
      | [] =>
          ({| waiting := []; running := None; stopped := stopped q |},
           [End x ok])
      | y :: rest =>
          ({| waiting := rest; running := Some y; stopped := stopped q |},
           [End x ok; Begin y])
      end
  end.

(** Modelled from the spec: [stop].  Every task still waiting is
    rejected with the stopped failure; the executing one is left
    alone. *)
Definition stop (q : t) : t * list obs :=
  ({| waiting := []; running := running q; stopped := true |},
   RejectStopped <$> waiting q).

Definition step (q : t) (i : input) : t * list obs :=
  match i with
  | Push x => push x q
  | Settle ok => settle ok q
  | Stop => stop q
  end.

Fixpoint run (q : t) (ins : list input) : t * list obs :=
  match ins with
  | [] => (q, [])
  | i :: ins' =>
      let '(q1, o1) := step q i in
      let '(q2, o2) := run q1 ins' in
      (q2, o1 ++ o2)
  end.

(** Projections of inputs and observations. *)
Definition submitted (ins : list input) : list T :=
  omap (fun i => match i with Push x => Some x | _ => None end) ins.

Definition begun (os : list obs) : list T :=
  omap (fun o => match o with Begin x => Some x | _ => None end) os.

Definition rejected (os : list obs) : list T :=
  omap (fun o => match o with RejectStopped x => Some x | _ => None end) os.

Definition finished (os : list obs) : list (T * bool) :=
  omap (fun o => match o with End x ok => Some (x, ok) | _ => None end) os.

(** No overlap: entries and exits alternate, each exit closing the
    entry just before it.  [cur] is the task inside, if any. *)
Fixpoint serial (cur : option T) (os : list obs) : Prop :=
  match os with
  | [] => True
  | Begin x :: os' => cur = None /\ serial (Some x) os'
  | End x _ :: os' => cur = Some x /\ serial None os'
  | RejectStopped _ :: os' => serial cur os'
  end.

(** The task inside after a run of observations. *)
Fixpoint inside (cur : option T) (os : list obs) : option T :=
  match os with
  | [] => cur
  | Begin x :: os' => inside (Some x) os'
  | End _ _ :: os' => inside None os'
  | RejectStopped _ :: os' => inside cur os'
  end.

(** Whether a stop is among the inputs. *)
Definition has_stop (ins : list input) : bool :=
  existsb (fun i => match i with Stop => true | _ => false end) ins.

(** The tasks submitted that have neither begun nor been rejected, in
    submission order. *)
Definition pending (ins : list input) (os : list obs) : list T :=
  drop (length (begun os) + length (rejected os)) (submitted ins).

(** Modelled from the spec: what the next input makes observable, told
    from the history alone (section 4.1).  A submission to a stopped
    queue is rejected, one to an idle queue begins at once, and one to
    a busy queue waits; when the task inside settles it leaves with its
    outcome and the oldest pending task begins; a stop rejects every
    pending task and leaves the task inside alone. *)
Definition reaction (ins : list input) (os : list obs) (i : input) : list obs :=
  match i with
  | Push x =>
      if has_stop ins then [RejectStopped x]
      else match inside None os with
           | None => [Begin x]
           | Some _ => []
           end
  | Settle ok =>
      match inside None os with
      | None => []
      | Some x =>
          End x ok :: match pending ins os with
                      | y :: _ => [Begin y]
                      | [] => []
                      end
      end
  | Stop => RejectStopped <$> pending ins os
  end.

(** What holds of a queue, of what was put into it and of everything
    observed since it was created. *)
Record consistent (ins : list input) (q : t) (os : list obs) : Prop := {
  cons_serial : serial None os;
  cons_inside : inside None os = running q;
  cons_account : submitted ins = begun os ++ rejected os ++ waiting q;
  cons_rejected : stopped q = false -> rejected os = [];
  cons_stopped : stopped q = true -> waiting q = [];
  cons_begun : begun os = (fst <$> finished os) ++ option_list (running q);
  cons_idle : running q = None -> waiting q = [];
  cons_stop : stopped q = has_stop ins
}.

End Queue.

Arguments t : clear implicits.
Arguments input : clear implicits.
Arguments obs : clear implicits.

End AwaitQueue.

(** ** Values exchanged with the caller and the adapter *)

(** A reference to a parameters object ([RtpParameters],
    [SctpStreamParameters]): these are passed and mutated by reference. *)
Abbreviation loc := positive.

Inductive Direction : Type := send | recv.

Inductive IceGatheringState : Type :=
| IceNew | IceGathering | IceComplete.

Inductive ConnectionState : Type :=
| ConnNew | ConnConnecting | ConnConnected
| ConnFailed | ConnDisconnected | ConnClosed.

Global Instance Direction_eq_dec : EqDecision Direction.
Proof. solve_decision. Defined.
Global Instance IceGatheringState_eq_dec : EqDecision IceGatheringState.
Proof. solve_decision. Defined.
Global Instance ConnectionState_eq_dec : EqDecision ConnectionState.
Proof. solve_decision. Defined.

Record MediaStreamTrack : Type := {
  track_id : string;
  track_kind : string;
  readyState : string
}.

Record HandlerSendOptions : Type := {
  so_track : MediaStreamTrack;
  so_encodings : JsValue;
  so_codecOptions : JsValue;
  so_codec : JsValue
}.

Record HandlerSendResult : Type := {
  localId : string;
  sr_rtpParameters : loc;
  rtpSender : JsValue
}.

Record HandlerSendDataChannelOptions : Type := {
  ordered : JsValue;
  maxPacketLifeTime : JsValue;
  maxRetransmits : JsValue;
  sd_label : JsValue;
  sd_protocol : JsValue
}.

Record HandlerSendDataChannelResult : Type := {
  sd_dataChannel : JsValue;
  sd_sctpStreamParameters : loc
}.

Record HandlerReceiveOptions : Type := {
  trackId : string;
  ro_kind : string;
  ro_rtpParameters : loc;
  ro_streamId : JsValue
}.

Record HandlerReceiveDataChannelOptions : Type := {
  rd_sctpStreamParameters : loc;
  rd_label : JsValue;
  rd_protocol : JsValue
}.

(** The methods of [HandlerInterface] the transports call. *)
Inductive HandlerCall : Type :=
| HClose
| HGetTransportStats
| HRestartIce (iceParameters : JsValue)
| HUpdateIceServers (iceServers : JsValue)
| HSend (options : HandlerSendOptions)
| HStopSending (id : string)
| HPauseSending (id : string)
| HResumeSending (id : string)
| HReplaceTrack (id : string) (track : option MediaStreamTrack)
| HSetMaxSpatialLayer (id : string) (spatialLayer : JsValue)
| HSetRtpEncodingParameters (id : string) (params : JsValue)
| HGetSenderStats (id : string)
| HSendDataChannel (options : HandlerSendDataChannelOptions)
| HReceive (optionsList : list HandlerReceiveOptions)
| HStopReceiving (ids : list string)
| HPauseReceiving (ids : list string)
| HResumeReceiving (ids : list string)
| HGetReceiverStats (id : string)
| HReceiveDataChannel (options : HandlerReceiveDataChannelOptions).

Definition Reply (c : HandlerCall) : Type :=
  match c with
  | HSend _ => HandlerSendResult
  | HSendDataChannel _ => HandlerSendDataChannelResult
  | HReceive _ => list JsValue
  | HReceiveDataChannel _ => JsValue
  | HGetTransportStats | HGetSenderStats _ | HGetReceiverStats _ => JsValue
  | _ => unit
  end.

(** The parameter objects a call hands to the adapter by reference. *)
Definition call_refs (c : HandlerCall) : list loc :=
  match c with
  | HReceive optionsList => ro_rtpParameters <$> optionsList
  | HReceiveDataChannel options => [rd_sctpStreamParameters options]
  | _ => []
  end.

(** The engine adapter is external: any state of its own, any reply or
    failure to any call, any change to the objects on the heap. *)
Class HandlerInterface (H : Type) : Type :=
  handle : forall c : HandlerCall,
      H -> gmap loc JsValue -> Res (Reply c) * H * gmap loc JsValue.

(** [ortc] and [utils] are not part of the sources at hand.  Their
    functions take a parameters object by reference; each is given here
    as a function of the object's content that also returns the content
    the object has afterwards. *)
Class Ortc : Type := {
  canReceive : JsValue -> JsValue -> bool * JsValue;
  validateRtpParameters : JsValue -> option Error * JsValue;
  validateSctpStreamParameters : JsValue -> option Error * JsValue;
  generateProbatorRtpParameters : JsValue -> Res JsValue * JsValue
}.

(** The commands handed to the queue, one constructor per closure passed
    to [_awaitQueue.push] in the sources. *)
Inductive Task : Type :=
| TRestartIce (iceParameters : JsValue)
| TUpdateIceServers (iceServers : JsValue)
| TProduce (track : MediaStreamTrack) (encodings codecOptions codec : JsValue)
| TProduceData (ordered maxPacketLifeTime maxRetransmits label protocol : JsValue)
| TCloseProducer (id : string)
| TPauseProducer (id : string)
| TResumeProducer (id : string)
| TReplaceTrack (id : string) (track : option MediaStreamTrack)
| TSetMaxSpatialLayer (id : string) (spatialLayer : JsValue)
| TSetRtpEncodingParameters (id : string) (params : JsValue)
| TConsume (id kind : string) (rtpParameters : loc) (streamId : JsValue)
| TConsumeData (sctpStreamParameters : loc) (label protocol : JsValue)
| TCloseConsumer (id : string)
| TPauseConsumer (id : string)
| TResumeConsumer (id : string).

Definition task_name (t : Task) : string :=
  match t with
  | TRestartIce _ => "transport.restartIce()"
  | TUpdateIceServers _ => "transport.updateIceServers()"
  | TProduce _ _ _ _ => "transport.produce()"
  | TProduceData _ _ _ _ _ => "transport.produceData()"
  | TCloseProducer _ => "producer @close event"
  | TPauseProducer _ => "producer @pause event"
  | TResumeProducer _ => "producer @resume event"
  | TReplaceTrack _ _ => "producer @replacetrack event"
  | TSetMaxSpatialLayer _ _ => "producer @setmaxspatiallayer event"
  | TSetRtpEncodingParameters _ _ => "producer @setrtpencodingparameters event"
  | TConsume _ _ _ _ => "transport.createConsumer()"
  | TConsumeData _ _ _ => "transport.consumeData()"
  | TCloseConsumer _ => "transport.closeConsumer"
  | TPauseConsumer _ => "transport.pauseConsumer"
  | TResumeConsumer _ => "transport.resumeConsumer"
  end.

(** What a settled command yields. *)
Inductive TaskValue : Type :=
| VVoid
| VSend (r : HandlerSendResult)
| VSendData (r : HandlerSendDataChannelResult)
| VReceive (r : JsValue)
| VReceiveData (dataChannel : JsValue).

(** Everything that leaves the transport, in the order it happens. *)
Inductive Event : Type :=
| Call (c : HandlerCall) (returned : bool)
| Enqueue (t : Task)
| Emit_icegatheringstatechange (s : IceGatheringState)
| Emit_connectionstatechange (s : ConnectionState)
| Observer_close
| Connect_callback
| Connect_errback (e : Error)
| Track_stop (track : MediaStreamTrack).

(** ** The transport object *)

(** The fields of [Transport], with [_probatorConsumerCreated] of
    [RecvTransport]; the adapter behind [_handler] is part of the world. *)
Record Transport : Type := {
  _closed : bool;
  _direction : Direction;
  _extendedRtpCapabilities : JsValue;
  _canProduceByKind : gmap string bool;
  _maxSctpMessageSize : JsValue;
  _iceGatheringState : IceGatheringState;
  _connectionState : ConnectionState;
  _awaitQueue : AwaitQueue.t Task;
  _probatorConsumerCreated : bool
}.

Definition set_closed (b : bool) (t : Transport) : Transport :=
  {| _closed := b; _direction := _direction t;
     _extendedRtpCapabilities := _extendedRtpCapabilities t;
     _canProduceByKind := _canProduceByKind t;
     _maxSctpMessageSize := _maxSctpMessageSize t;
     _iceGatheringState := _iceGatheringState t;
     _connectionState := _connectionState t;
     _awaitQueue := _awaitQueue t;
     _probatorConsumerCreated := _probatorConsumerCreated t |}.

Definition set_iceGatheringState (s : IceGatheringState) (t : Transport) : Transport :=
  {| _closed := _closed t; _direction := _direction t;
     _extendedRtpCapabilities := _extendedRtpCapabilities t;
     _canProduceByKind := _canProduceByKind t;
     _maxSctpMessageSize := _maxSctpMessageSize t;
     _iceGatheringState := s;
     _connectionState := _connectionState t;
     _awaitQueue := _awaitQueue t;
     _probatorConsumerCreated := _probatorConsumerCreated t |}.

Definition set_connectionState (s : ConnectionState) (t : Transport) : Transport :=
  {| _closed := _closed t; _direction := _direction t;
     _extendedRtpCapabilities := _extendedRtpCapabilities t;
     _canProduceByKind := _canProduceByKind t;
     _maxSctpMessageSize := _maxSctpMessageSize t;
     _iceGatheringState := _iceGatheringState t;
     _connectionState := s;
     _awaitQueue := _awaitQueue t;
     _probatorConsumerCreated := _probatorConsumerCreated t |}.

Definition set_awaitQueue (q : AwaitQueue.t Task) (t : Transport) : Transport :=
  {| _closed := _closed t; _direction := _direction t;
     _extendedRtpCapabilities := _extendedRtpCapabilities t;
     _canProduceByKind := _canProduceByKind t;
     _maxSctpMessageSize := _maxSctpMessageSize t;
     _iceGatheringState := _iceGatheringState t;
     _connectionState := _connectionState t;
     _awaitQueue := q;
     _probatorConsumerCreated := _probatorConsumerCreated t |}.

Definition set_probatorConsumerCreated (b : bool) (t : Transport) : Transport :=
  {| _closed := _closed t; _direction := _direction t;
     _extendedRtpCapabilities := _extendedRtpCapabilities t;
     _canProduceByKind := _canProduceByKind t;
     _maxSctpMessageSize := _maxSctpMessageSize t;
     _iceGatheringState := _iceGatheringState t;
     _connectionState := _connectionState t;
     _awaitQueue := _awaitQueue t;
     _probatorConsumerCreated := b |}.

(** The state a method runs in: the transport, the adapter, the heap of
    parameter objects and the record of what left the transport. *)
Record World (H : Type) : Type := {
  this : Transport;
  handler : H;
  heap : gmap loc JsValue;
  log : list Event
}.
Arguments this {H} _.
Arguments handler {H} _.
Arguments heap {H} _.
Arguments log {H} _.

(** ** Methods as computations *)

Section Methods.
Context {H : Type} `{!HandlerInterface H} `{!Ortc}.

(** A method runs in a world and either returns or throws; what it did
    to the world before throwing stays done.  For the [async] methods
    a throw is the rejection of the promise they return. *)
Definition M (A : Type) : Type := World H -> Res A * World H.

Definition ret {A} (a : A) : M A := fun w => (Ok a, w).

Definition bind {A B} (m : M A) (k : A -> M B) : M B :=
  fun w => match m w with
           | (Ok a, w') => k a w'
           | (Throw e, w') => (Throw e, w')
           end.

Definition throw {A} (e : Error) : M A := fun w => (Throw e, w).

(** [try { m } catch (error) { h error }] *)
Definition try_catch {A} (m : M A) (h : Error -> M A) : M A :=
  fun w => match m w with
           | (Ok a, w') => (Ok a, w')
           | (Throw e, w') => h e w'
           end.

Definition lift {A} (r : Res A) : M A := fun w => (r, w).

Definition read : M Transport := fun w => (Ok (this w), w).

Definition update (f : Transport -> Transport) : M unit :=
  fun w => (Ok tt, {| this := f (this w); handler := handler w;
                      heap := heap w; log := log w |}).

Definition record (e : Event) : M unit :=
  fun w => (Ok tt, {| this := this w; handler := handler w;
                      heap := heap w; log := log w ++ [e] |}).

Definition returned {A} (r : Res A) : bool :=
  match r with Ok _ => true | Throw _ => false end.

(** An adapter method is invoked: the adapter answers, and the call
    and how it ended are recorded. *)
Definition call (c : HandlerCall) : M (Reply c) :=
  fun w => let '(r, h', hp') := handle c (handler w) (heap w) in
           (r, {| this := this w; handler := h'; heap := hp';
                  log := log w ++ [Call c (returned r)] |}).

(** A new object with the given content. *)
Definition alloc (v : JsValue) : M loc :=
  fun w => let l := fresh (dom (heap w)) in
           (Ok l, {| this := this w; handler := handler w;
                     heap := <[l := v]> (heap w); log := log w |}).

(** A function is applied to the object behind a reference and may
    change it in place. *)
Definition on_object {A} (f : JsValue -> A * JsValue) (l : loc) : M A :=
  fun w => let '(a, v') := f (heap w !!! l) in
           (Ok a, {| this := this w; handler := handler w;
                     heap := <[l := v']> (heap w); log := log w |}).

(** Modelled from the spec: [utils.clone], whose source is not at
    hand: a deep copy, that is a new object with the same content
    that shares nothing with the original. *)
Definition clone (l : loc) : M loc :=
  fun w => alloc (heap w !!! l) w.

Definition ortc_canReceive (l : loc) (caps : JsValue) : M bool :=
  on_object (fun v => canReceive v caps) l.

Definition ortc_validateRtpParameters (l : loc) : M unit :=
  bind (on_object validateRtpParameters l)
       (fun r => match r with Some e => throw e | None => ret tt end).

Definition ortc_validateSctpStreamParameters (l : loc) : M unit :=
  bind (on_object validateSctpStreamParameters l)
       (fun r => match r with Some e => throw e | None => ret tt end).

Definition ortc_generateProbatorRtpParameters (l : loc) : M loc :=
  bind (on_object generateProbatorRtpParameters l)
       (fun r => match r with Throw e => throw e | Ok v => alloc v end).

(** [this._awaitQueue.push(task, name)] *)
Definition push (t : Task) : M unit :=
  bind (record (Enqueue t))
       (fun _ => update (fun tr =>
          set_awaitQueue (fst (AwaitQueue.push t (_awaitQueue tr))) tr)).

Local Notation "'let!' x ':=' c 'in' k" := (bind c (fun x => k))
  (at level 10, x name, c at level 100, k at level 200).

(** *** Transport.ts *)

(** [close()] *)
Definition close : M unit :=
  let! t := read in
  if _closed t then ret tt
  else
    let! _ := update (set_closed true) in
    let! _ := update (fun tr =>
                set_awaitQueue (fst (AwaitQueue.stop (_awaitQueue tr))) tr) in
    let! _ := call HClose in
    let! _ := update (set_connectionState ConnClosed) in
    record Observer_close.

(** [getStats()] *)
Definition getStats : M JsValue :=
  let! t := read in
  if _closed t then throw (InvalidStateError "closed")
  else call HGetTransportStats.

(** The promise an enqueuing method returns: the queue's promise for
    the command, with the rejection handler chained onto it, if any. *)
Inductive Catch : Type :=
| NoCatch
| StopTrackCatch (stopTracks : JsValue) (track : MediaStreamTrack).

Record Promise : Type := { p_task : Task; p_catch : Catch }.

Definition enqueue (t : Task) (c : Catch) : M Promise :=
  let! _ := push t in
  ret {| p_task := t; p_catch := c |}.

(** [restartIce({ iceParameters })] *)
Definition restartIce (iceParameters : JsValue) : M Promise :=
  let! t := read in
  if _closed t then throw (InvalidStateError "closed")
  else if negb (truthy iceParameters) then
    throw (TypeError "missing iceParameters")
  else enqueue (TRestartIce iceParameters) NoCatch.

(** [updateIceServers({ iceServers } = {})] *)
Definition updateIceServers (iceServers : JsValue) : M Promise :=
  let! t := read in
  if _closed t then throw (InvalidStateError "closed")
  else if negb (isArray iceServers) then
    throw (TypeError "missing iceServers")
  else enqueue (TUpdateIceServers iceServers) NoCatch.

(** [handleHandler()]: the three listeners installed on the adapter. *)
Definition on_connect (dtlsParameters : JsValue) : M unit :=
  let! t := read in
  if _closed t then record (Connect_errback (InvalidStateError "closed"))
  else record Connect_callback.

Definition on_icegatheringstatechange (iceGatheringState : IceGatheringState)
  : M unit :=
  let! t := read in
  if bool_decide (iceGatheringState = _iceGatheringState t) then ret tt
  else
    let! _ := update (set_iceGatheringState iceGatheringState) in
    let! t := read in
    if negb (_closed t) then
      record (Emit_icegatheringstatechange iceGatheringState)
    else ret tt.

Definition on_connectionstatechange (connectionState : ConnectionState)
  : M unit :=
  let! t := read in
  if bool_decide (connectionState = _connectionState t) then ret tt
  else
    let! _ := update (set_connectionState connectionState) in
    let! t := read in
    if negb (_closed t) then
      record (Emit_connectionstatechange connectionState)
    else ret tt.

(** *** SendTransport.ts *)

Record ProducerOptions : Type := {
  track : option MediaStreamTrack;
  encodings : JsValue;
  codecOptions : JsValue;
  codec : JsValue;
  stopTracks : JsValue;
  disableTrackOnPause : JsValue;
  zeroRtpOnPause : JsValue
}.

Record DataProducerOptions : Type := {
  dp_ordered : JsValue;
  dp_maxPacketLifeTime : JsValue;
  dp_maxRetransmits : JsValue;
  dp_label : JsValue;
  dp_protocol : JsValue
}.

(** The callback of [encodings.map] in [produce]. *)
Definition normalizeEncoding (encoding : JsValue) : Res JsValue :=
  match get encoding "active" with
  | Throw e => Throw e
  | Ok active =>
      let prop k :=
        match get encoding k with Ok v => v | Throw _ => JsUndefined end in
      let keep (p : JsValue -> bool) k :=
        if p (prop k) then [(k, prop k)] else [] in
      Ok (JsObject
            (("active",
               JsBool (match active with JsBool false => false | _ => true end))
             :: keep is_boolean "dtx"
             ++ keep is_string "scalabilityMode"
             ++ keep is_number "scaleResolutionDownBy"
             ++ keep is_number "maxBitrate"
             ++ keep is_number "maxFramerate"
             ++ keep is_boolean "adaptivePtime"
             ++ keep is_string "priority"
             ++ keep is_string "networkPriority"))
  end.

Definition normalizeEncodings (encodings : JsValue) : Res JsValue :=
  if truthy encodings && negb (isArray encodings) then
    Throw (TypeError "encodings must be an array")
  else
    match encodings with
    | JsArray [] => Ok JsUndefined
    | JsArray items =>
        match mapM_res normalizeEncoding items with
        | Throw e => Throw e
        | Ok l => Ok (JsArray l)
        end
    | _ => Ok JsUndefined
    end.

(** The command enqueued by [produce]. *)
Definition produce_task (track : MediaStreamTrack)
    (encodings codecOptions codec : JsValue) : M TaskValue :=
  let! normalizedEncodings := lift (normalizeEncodings encodings) in
  let! r := call (HSend {| so_track := track;
                           so_encodings := normalizedEncodings;
                           so_codecOptions := codecOptions;
                           so_codec := codec |}) in
  try_catch
    (let! _ := ortc_validateRtpParameters (sr_rtpParameters r) in
     ret (VSend r))
    (fun error =>
       let! _ := try_catch (let! _ := call (HStopSending (localId r)) in ret tt)
                           (fun _ => ret tt) in
       throw error).

(** The names every object written as a literal inherits from
    [Object.prototype]: read on such an object, a name among them that
    the object does not define itself gives a function (for
    [__proto__], the prototype), which is truthy. *)
Definition Object_prototype_names : list string :=
  ["constructor"; "hasOwnProperty"; "isPrototypeOf"; "propertyIsEnumerable";
   "toLocaleString"; "toString"; "valueOf"; "__proto__";
   "__defineGetter__"; "__defineSetter__"; "__lookupGetter__";
   "__lookupSetter__"].

(** Whether [table[k]] is truthy, for a table of booleans that is an
    ordinary object: its own entry if it has one, and what it inherits
    otherwise. *)
Definition truthy_at (table : gmap string bool) (k : string) : bool :=
  match table !! k with
  | Some b => b
  | None => bool_decide (k ∈ Object_prototype_names)
  end.

(** [produce(options)]: the checks and the submission. *)
Definition produce (o : ProducerOptions) : M Promise :=
  let stopTracks := or_default (stopTracks o) (JsBool true) in
  let! t := read in
  if _closed t then throw (InvalidStateError "closed")
  else
    match track o with
    | None => throw (TypeError "missing track")
    | Some track =>
        if negb (bool_decide (_direction t = send)) then
          throw (UnsupportedError "not a sending Transport")
        else if negb (truthy_at (_canProduceByKind t) (track_kind track)) then
          throw (UnsupportedError ("cannot produce " +:+ track_kind track))
        else if String.eqb (readyState track) "ended" then
          throw (InvalidStateError "track ended")
        else
          enqueue (TProduce track (encodings o) (codecOptions o) (codec o))
                  (StopTrackCatch stopTracks track)
    end.

(** The [.catch] chained onto the promise of [produce]. *)
Definition produce_catch (stopTracks : JsValue) (track : MediaStreamTrack)
    (error : Error) : M TaskValue :=
  let! _ := (if truthy stopTracks then record (Track_stop track) else ret tt) in
  throw error.

(** The command enqueued by [produceData]. *)
Definition produceData_task
    (ordered maxPacketLifeTime maxRetransmits label protocol : JsValue)
  : M TaskValue :=
  let! r := call (HSendDataChannel
                    {| ordered := ordered;
                       maxPacketLifeTime := maxPacketLifeTime;
                       maxRetransmits := maxRetransmits;
                       sd_label := label;
                       sd_protocol := protocol |}) in
  let! _ := ortc_validateSctpStreamParameters (sd_sctpStreamParameters r) in
  ret (VSendData r).

(** [produceData(options)] *)
Definition produceData (o : DataProducerOptions) : M Promise :=
  let ordered := or_default (dp_ordered o) (JsBool true) in
  let maxPacketLifeTime := dp_maxPacketLifeTime o in
  let maxRetransmits := dp_maxRetransmits o in
  let label := or_default (dp_label o) (JsString "") in
  let protocol := or_default (dp_protocol o) (JsString "") in
  let! t := read in
  if _closed t then throw (InvalidStateError "closed")
  else if negb (bool_decide (_direction t = send)) then
    throw (UnsupportedError "not a sending Transport")
  else if negb (truthy (_maxSctpMessageSize t)) then
    throw (UnsupportedError "SCTP not enabled by remote Transport")
  else
    let ordered :=
      if truthy maxPacketLifeTime || truthy maxRetransmits
      then JsBool false else ordered in
    enqueue (TProduceData ordered maxPacketLifeTime maxRetransmits
                          label protocol) NoCatch.

Definition closeProducer (localId : string) : M Promise :=
  enqueue (TCloseProducer localId) NoCatch.

Definition pauseProducer (localId : string) : M Promise :=
  enqueue (TPauseProducer localId) NoCatch.

Definition resumeProducer (localId : string) : M Promise :=
  enqueue (TResumeProducer localId) NoCatch.

Definition replaceTrack (localId : string) (track : option MediaStreamTrack)
  : M Promise :=
  enqueue (TReplaceTrack localId track) NoCatch.

Definition setMaxSpatialLayer (localId : string) (spatialLayer : JsValue)
  : M Promise :=
  enqueue (TSetMaxSpatialLayer localId spatialLayer) NoCatch.

Definition setRtpEncodingParameters (localId : string) (params : JsValue)
  : M Promise :=
  enqueue (TSetRtpEncodingParameters localId params) NoCatch.

(** [getProducerStats(localId)] *)
Definition getProducerStats (localId : string) : M JsValue :=
  let! t := read in
  if _closed t then throw (InvalidStateError "closed")
  else call (HGetSenderStats localId).

(** *** RecvTransport.ts *)

Record ConsumerOptions : Type := {
  c_id : JsValue;
  c_producerId : JsValue;
  c_kind : JsValue;
  c_rtpParameters : loc;
  c_streamId : JsValue
}.

Record DataConsumerOptions : Type := {
  dc_id : JsValue;
  dc_dataProducerId : JsValue;
  dc_sctpStreamParameters : loc;
  dc_label : JsValue;
  dc_protocol : JsValue
}.

Definition probator_options (probatorRtpParameters : loc)
  : HandlerReceiveOptions :=
  {| trackId := "probator"; ro_kind := "video";
     ro_rtpParameters := probatorRtpParameters;
     ro_streamId := JsUndefined |}.

(** The command enqueued by [consume]. *)
Definition consume_task (id kind : string) (rtpParameters : loc)
    (streamId : JsValue) : M TaskValue :=
  let optionsList :=
    [ {| trackId := id; ro_kind := kind;
         ro_rtpParameters := rtpParameters; ro_streamId := streamId |} ] in
  let! results := call (HReceive optionsList) in
  let recvResult := default JsUndefined (head results) in
  let! t := read in
  let videoConsumerForProbator :=
    if negb (_probatorConsumerCreated t) && String.eqb kind "video"
    then Some rtpParameters else None in
  let! _ :=
    match videoConsumerForProbator with
    | Some videoRtpParameters =>
        try_catch
          (let! probatorRtpParameters :=
             ortc_generateProbatorRtpParameters videoRtpParameters in
           let! _ := call (HReceive [probator_options probatorRtpParameters]) in
           update (set_probatorConsumerCreated true))
          (fun error => ret tt)
    | None => ret tt
    end in
  ret (VReceive recvResult).

(** [consume(options)]: the checks and the submission. *)
Definition consume (o : ConsumerOptions) : M Promise :=
  let! rtpParameters := clone (c_rtpParameters o) in
  let! t := read in
  if _closed t then throw (InvalidStateError "closed")
  else if negb (bool_decide (_direction t = recv)) then
    throw (UnsupportedError "not a receiving Transport")
  else
    match c_id o with
    | JsString id =>
        if negb (is_string (c_producerId o)) then
          throw (TypeError "missing producerId")
        else
          match c_kind o with
          | JsString kind =>
              if negb (String.eqb kind "audio") && negb (String.eqb kind "video")
              then throw (TypeError ("invalid kind '" +:+ kind +:+ "'"))
              else
                let! canConsume :=
                  ortc_canReceive rtpParameters (_extendedRtpCapabilities t) in
                if negb canConsume then
                  throw (UnsupportedError "cannot consume this Producer")
                else
                  enqueue (TConsume id kind rtpParameters (c_streamId o)) NoCatch
          | kind =>
              throw (TypeError ("invalid kind '" +:+ js_toString kind +:+ "'"))
          end
    | _ => throw (TypeError "missing id")
    end.

(** The command enqueued by [consumeData]. *)
Definition consumeData_task (sctpStreamParameters : loc)
    (label protocol : JsValue) : M TaskValue :=
  let! dataChannel :=
    call (HReceiveDataChannel
            {| rd_sctpStreamParameters := sctpStreamParameters;
               rd_label := label; rd_protocol := protocol |}) in
  ret (VReceiveData dataChannel).

(** [consumeData(options)] *)
Definition consumeData (o : DataConsumerOptions) : M Promise :=
  let label := or_default (dc_label o) (JsString "") in
  let protocol := or_default (dc_protocol o) (JsString "") in
  let! sctpStreamParameters := clone (dc_sctpStreamParameters o) in
  let! t := read in
  if _closed t then throw (InvalidStateError "closed")
  else if negb (bool_decide (_direction t = recv)) then
    throw (UnsupportedError "not a receiving Transport")
  else if negb (truthy (_maxSctpMessageSize t)) then
    throw (UnsupportedError "SCTP not enabled by remote Transport")
  else if negb (is_string (dc_id o)) then
    throw (TypeError "missing id")
  else if negb (is_string (dc_dataProducerId o)) then
    throw (TypeError "missing dataProducerId")
  else
    let! _ := ortc_validateSctpStreamParameters sctpStreamParameters in
    enqueue (TConsumeData sctpStreamParameters label protocol) NoCatch.

Definition closeConsumer (localId : string) : M Promise :=
  let! t := read in
  if _closed t then throw (InvalidStateError "closed")
  else enqueue (TCloseConsumer localId) NoCatch.

Definition pauseConsumer (localId : string) : M Promise :=
  let! t := read in
  if _closed t then throw (InvalidStateError "closed")
  else enqueue (TPauseConsumer localId) NoCatch.

Definition resumeConsumer (localId : string) : M Promise :=
  let! t := read in
  if _closed t then throw (InvalidStateError "closed")
  else enqueue (TResumeConsumer localId) NoCatch.

(** [getConsumerStats(localId)] *)
Definition getConsumerStats (localId : string) : M JsValue :=
  let! t := read in
  if _closed t then throw (InvalidStateError "closed")
  else call (HGetReceiverStats localId).

(** *** Commands and promises *)

Definition void (m : M unit) : M TaskValue :=
  let! _ := m in ret VVoid.

(** The body of each enqueued closure. *)
Definition run_task (t : Task) : M TaskValue :=
  match t with
  | TRestartIce iceParameters => void (call (HRestartIce iceParameters))
  | TUpdateIceServers iceServers => void (call (HUpdateIceServers iceServers))
  | TProduce track encodings codecOptions codec =>
      produce_task track encodings codecOptions codec
  | TProduceData ordered maxPacketLifeTime maxRetransmits label protocol =>
      produceData_task ordered maxPacketLifeTime maxRetransmits label protocol
  | TCloseProducer localId => void (call (HStopSending localId))
  | TPauseProducer localId => void (call (HPauseSending localId))
  | TResumeProducer localId => void (call (HResumeSending localId))
  | TReplaceTrack localId track => void (call (HReplaceTrack localId track))
  | TSetMaxSpatialLayer localId spatialLayer =>
      void (call (HSetMaxSpatialLayer localId spatialLayer))
  | TSetRtpEncodingParameters localId params =>
      void (call (HSetRtpEncodingParameters localId params))
  | TConsume id kind rtpParameters streamId =>
      consume_task id kind rtpParameters streamId
  | TConsumeData sctpStreamParameters label protocol =>
      consumeData_task sctpStreamParameters label protocol
  | TCloseConsumer localId => void (call (HStopReceiving [localId]))
  | TPauseConsumer localId => void (call (HPauseReceiving [localId]))
  | TResumeConsumer localId => void (call (HResumeReceiving [localId]))
  end.

(** What the queue does with a submitted command: it runs it, or it
    rejects it with the stopped failure without running it. *)
Inductive Fate : Type := Executed | Stopped.

Definition queue_promise (f : Fate) (t : Task) : M TaskValue :=
  match f with
  | Executed => run_task t
  | Stopped => throw AwaitQueueStoppedError
  end.

Definition on_rejected (c : Catch) (error : Error) : M TaskValue :=
  match c with
  | NoCatch => throw error
  | StopTrackCatch stopTracks track => produce_catch stopTracks track error
  end.

(** How the promise returned to the caller settles. *)
Definition settle (p : Promise) (f : Fate) : M TaskValue :=
  try_catch (queue_promise f (p_task p)) (on_rejected (p_catch p)).

(** *** The transport driven from outside *)

(** What the adapter and the owner of the transport can do to its
    state machine. *)
Inductive Stimulus : Type :=
| DoClose
| RaiseConnect (dtlsParameters : JsValue)
| RaiseIceGatheringStateChange (s : IceGatheringState)
| RaiseConnectionStateChange (s : ConnectionState).

Definition react (s : Stimulus) : M unit :=
  match s with
  | DoClose => close
  | RaiseConnect dtlsParameters => on_connect dtlsParameters
  | RaiseIceGatheringStateChange s => on_icegatheringstatechange s
  | RaiseConnectionStateChange s => on_connectionstatechange s
  end.

Fixpoint react_all (l : list Stimulus) (w : World H) : World H :=
  match l with
  | [] => w
  | s :: l' => react_all l' (snd (react s w))
  end.

End Methods.

(** ** Statements' vocabulary *)

(** The constructor, as far as the fields go (the certificate and the
    start of the adapter are left out). *)
Definition new_Transport (direction : Direction)
    (sctpParameters extendedRtpCapabilities : JsValue)
    (canProduceByKind : gmap string bool) : Transport :=
  {| _closed := false;
     _direction := direction;
     _extendedRtpCapabilities := extendedRtpCapabilities;
     _canProduceByKind := canProduceByKind;
     _maxSctpMessageSize :=
       if truthy sctpParameters
       then match get sctpParameters "maxMessageSize" with
            | Ok v => v
            | Throw _ => JsUndefined
            end
       else JsNull;
     _iceGatheringState := IceNew;
     _connectionState := ConnNew;
     _awaitQueue := AwaitQueue.empty;
     _probatorConsumerCreated := false |}.

(** What a method added to the record of the world. *)
Definition since {H} (w w' : World H) : list Event :=
  drop (length (log w)) (log w').
Arguments since : simpl never.

Definition is_notification (e : Event) : bool :=
  match e with
  | Emit_icegatheringstatechange _ | Emit_connectionstatechange _ => true
  | _ => false
  end.

Definition is_adapter_call (e : Event) : bool :=
  match e with Call _ _ => true | _ => false end.

Definition is_track_stop (e : Event) : bool :=
  match e with Track_stop _ => true | _ => false end.

(** A request to the adapter for a receive stream under the reserved
    identifier, and one the adapter confirmed. *)
Definition is_probe_request (e : Event) : bool :=
  match e with
  | Call (HReceive [o]) _ => String.eqb (trackId o) "probator"
  | _ => false
  end.

Definition is_probe_confirmed (e : Event) : bool :=
  match e with
  | Call (HReceive [o]) true => String.eqb (trackId o) "probator"
  | _ => false
  end.

(** Commands run one after the other, as the queue runs them. *)
Definition run_tasks {H} `{!HandlerInterface H} `{!Ortc}
    (ts : list Task) (w : World H) : World H :=
  foldl (fun w t => snd (run_task t w)) w ts.

(** A consume command under an identifier other than the reserved one. *)
Definition ordinary_consume (t : Task) : Prop :=
  match t with
  | TConsume id _ _ _ => id <> "probator"
  | _ => False
  end.

(** The notifications one stimulus gives rise to: an adapter-raised
    value that differs from the current one, on a transport that is not
    closed. *)
Definition expected_notifications (t : Transport) (s : Stimulus) : list Event :=
  match s with
  | RaiseIceGatheringStateChange x =>
      if bool_decide (x <> _iceGatheringState t) && negb (_closed t)
      then [Emit_icegatheringstatechange x] else []
  | RaiseConnectionStateChange x =>
      if bool_decide (x <> _connectionState t) && negb (_closed t)
      then [Emit_connectionstatechange x] else []
  | DoClose | RaiseConnect _ => []
  end.

(** The connection state the adapter raised last, if it raised any. *)
Definition last_raised (l : list Stimulus) (c : ConnectionState) : ConnectionState :=
  fold_left (fun c s => match s with
                        | RaiseConnectionStateChange x => x
                        | _ => c
                        end) l c.

(** The notifications expected of a sequence of stimuli, each judged in
    the state its predecessors left. *)
(** The closed flag and the two state axes of a transport. *)
Record Axes : Type := {
  ax_closed : bool;
  ax_gathering : IceGatheringState;
  ax_connection : ConnectionState
}.

Definition axes_of (t : Transport) : Axes :=
  {| ax_closed := _closed t;
     ax_gathering := _iceGatheringState t;
     ax_connection := _connectionState t |}.

(** Whether the adapter's [close] returns, in the state the adapter is in. *)
Definition adapter_closes {H} `{!HandlerInterface H} (w : World H) : bool :=
  returned (fst (fst (handle HClose (handler w) (heap w)))).

(** What the amended claim C4 expects of one event, written on the axes
    alone: a value the adapter raises for an axis is stored, and it is
    notified when it differs from the current one and the transport is
    not closed; [close()] on an open transport closes it and, when the
    adapter's [close] returns ([closing]), assigns closed to the
    connection state; neither [close()] nor a connect request notifies
    anything. *)
Definition expected_step (closing : bool) (a : Axes) (s : Stimulus)
  : Axes * list Event :=
  match s with
  | DoClose =>
      if ax_closed a then (a, [])
      else ({| ax_closed := true;
               ax_gathering := ax_gathering a;
               ax_connection :=
                 if closing then ConnClosed else ax_connection a |}, [])
  | RaiseConnect _ => (a, [])
  | RaiseIceGatheringStateChange x =>
      ({| ax_closed := ax_closed a;
          ax_gathering := x;
          ax_connection := ax_connection a |},
       if bool_decide (x <> ax_gathering a) && negb (ax_closed a)
       then [Emit_icegatheringstatechange x] else [])
  | RaiseConnectionStateChange x =>
      ({| ax_closed := ax_closed a;
          ax_gathering := ax_gathering a;
          ax_connection := x |},
       if bool_decide (x <> ax_connection a) && negb (ax_closed a)
       then [Emit_connectionstatechange x] else [])
  end.

Fixpoint expected_run (closing : bool) (a : Axes) (l : list Stimulus)
  : Axes * list Event :=
  match l with
  | [] => (a, [])
  | s :: l' =>
      let '(a1, n1) := expected_step closing a s in
      let '(a2, n2) := expected_run closing a1 l' in
      (a2, n1 ++ n2)
  end.

(** The exposed operations, and what invoking one comes to. *)
Inductive Invocation : Type :=
| IGetStats
| IRestartIce (iceParameters : JsValue)
| IUpdateIceServers (iceServers : JsValue)
| IProduce (o : ProducerOptions)
| IProduceData (o : DataProducerOptions)
| ICloseProducer (id : string)
| IPauseProducer (id : string)
| IResumeProducer (id : string)
| IReplaceTrack (id : string) (track : option MediaStreamTrack)
| ISetMaxSpatialLayer (id : string) (spatialLayer : JsValue)
| ISetRtpEncodingParameters (id : string) (params : JsValue)
| IGetProducerStats (id : string)
| IConsume (o : ConsumerOptions)
| IConsumeData (o : DataConsumerOptions)
| ICloseConsumer (id : string)
| IPauseConsumer (id : string)
| IResumeConsumer (id : string)
| IGetConsumerStats (id : string).

Inductive Outcome : Type :=
| Submitted (p : Promise)
| Answered (v : JsValue).

Definition submitting {H} (m : World H -> Res Promise * World H)
  : World H -> Res Outcome * World H :=
  fun w => match m w with
           | (Ok p, w') => (Ok (Submitted p), w')
           | (Throw e, w') => (Throw e, w')
           end.

Definition answering {H} (m : World H -> Res JsValue * World H)
  : World H -> Res Outcome * World H :=
  fun w => match m w with
           | (Ok v, w') => (Ok (Answered v), w')
           | (Throw e, w') => (Throw e, w')
           end.

Definition invoke {H} `{!HandlerInterface H} `{!Ortc} (i : Invocation)
  : World H -> Res Outcome * World H :=
  match i with
  | IGetStats => answering getStats
  | IRestartIce iceParameters => submitting (restartIce iceParameters)
  | IUpdateIceServers iceServers => submitting (updateIceServers iceServers)
  | IProduce o => submitting (produce o)
  | IProduceData o => submitting (produceData o)
  | ICloseProducer id => submitting (closeProducer id)
  | IPauseProducer id => submitting (pauseProducer id)
  | IResumeProducer id => submitting (resumeProducer id)
  | IReplaceTrack id track => submitting (replaceTrack id track)
  | ISetMaxSpatialLayer id n => submitting (setMaxSpatialLayer id n)
  | ISetRtpEncodingParameters id ps => submitting (setRtpEncodingParameters id ps)
  | IGetProducerStats id => answering (getProducerStats id)
  | IConsume o => submitting (consume o)
  | IConsumeData o => submitting (consumeData o)
  | ICloseConsumer id => submitting (closeConsumer id)
  | IPauseConsumer id => submitting (pauseConsumer id)
  | IResumeConsumer id => submitting (resumeConsumer id)
  | IGetConsumerStats id => answering (getConsumerStats id)
  end.

(** The operations that go through the queue, and among all operations
    those that look at the closed flag first. *)
Definition enqueues (i : Invocation) : bool :=
  match i with
  | IGetStats | IGetProducerStats _ | IGetConsumerStats _ => false
  | _ => true
  end.

Definition checks_closed (i : Invocation) : bool :=
  match i with
  | ICloseProducer _ | IPauseProducer _ | IResumeProducer _
  | IReplaceTrack _ _ | ISetMaxSpatialLayer _ _
  | ISetRtpEncodingParameters _ _ => false
  | _ => true
  end.

Definition is_kind (v : JsValue) : bool :=
  match v with
  | JsString k => String.eqb k "audio" || String.eqb k "video"
  | _ => false
  end.

(** The checks of [consume] as the specification lists them, in order;
    [can] is the verdict of [canReceive]. *)
Definition consume_preflight_spec (t : Transport) (o : ConsumerOptions) (can : bool)
  : option Failure :=
  if _closed t then Some Closed
  else if negb (bool_decide (_direction t = recv)) then Some Unsupported
  else if negb (is_string (c_id o)) || negb (is_string (c_producerId o))
          || negb (is_kind (c_kind o)) then Some BadArgument
  else if negb can then Some Unsupported
  else None.

(** The adapter leaves an object alone unless a call hands it over. *)
Definition handler_keeps {H} `{!HandlerInterface H} (l : loc) : Prop :=
  forall (c : HandlerCall) (h : H) (hp : gmap loc JsValue),
    l ∉ call_refs c -> (handle c h hp).2 !! l = hp !! l.

(** ** Adapters and [ortc] functions to run the methods against *)

Definition default_reply (c : HandlerCall) : Reply c :=
  match c return Reply c with
  | HSend _ =>
      {| localId := "local-1"; sr_rtpParameters := 1%positive;
         rtpSender := JsNull |}
  | HSendDataChannel _ =>
      {| sd_dataChannel := JsNull; sd_sctpStreamParameters := 1%positive |}
  | HReceive optionsList => (fun o => JsString (trackId o)) <$> optionsList
  | HReceiveDataChannel _ => JsNull
  | HGetTransportStats => JsNull
  | HGetSenderStats _ => JsNull
  | HGetReceiverStats _ => JsNull
  | HClose => tt
  | HRestartIce _ => tt
  | HUpdateIceServers _ => tt
  | HStopSending _ => tt
  | HPauseSending _ => tt
  | HResumeSending _ => tt
  | HReplaceTrack _ _ => tt
  | HSetMaxSpatialLayer _ _ => tt
  | HSetRtpEncodingParameters _ _ => tt
  | HStopReceiving _ => tt
  | HPauseReceiving _ => tt
  | HResumeReceiving _ => tt
  end.

(** An adapter that follows a script: one entry per call, [true] to
    answer and [false] to fail; it answers once the script is over, and
    it never touches the heap. *)
Definition scripted_handler : HandlerInterface (list bool) :=
  fun c script hp =>
    match script with
    | false :: script' => (Throw (HandlerFailure "scripted failure"), script', hp)
    | true :: script' => (Ok (default_reply c), script', hp)
    | [] => (Ok (default_reply c), [], hp)
    end.

(** [ortc] functions that take objects for well-formed parameters and
    change nothing. *)
Definition is_object (v : JsValue) : bool :=
  match v with JsObject _ => true | _ => false end.

Definition plain_ortc : Ortc :=
  {| canReceive := fun v caps => (is_object v, v);
     validateRtpParameters := fun v =>
       (if is_object v then None else Some (TypeError "params is not an object"), v);
     validateSctpStreamParameters := fun v =>
       (if is_object v then None else Some (TypeError "params is not an object"), v);
     generateProbatorRtpParameters := fun v =>
       (if is_object v then Ok (JsObject [("mid", JsString "probator")])
        else Throw (TypeError "params is not an object"), v) |}.

Definition new_World {H} (h : H) (t : Transport) (hp : gmap loc JsValue)
  : World H :=
  {| this := t; handler := h; heap := hp; log := [] |}.

(** ** Properties of computations

    Three judgements that are proved rule by rule along the structure of
    a method. *)

(** A computation that either fails having touched neither the transport,
    the adapter nor the record, or submits exactly one command. *)
Definition submits_or_fails {H} (m : World H -> Res Promise * World H) : Prop :=
  forall w,
    match m w with
    | (Throw e, w') =>
        log w' = log w /\ this w' = this w /\ handler w' = handler w
    | (Ok p, w') =>
        log w' = log w ++ [Enqueue (p_task p)] /\ handler w' = handler w /\
        this w' = set_awaitQueue
                    (fst (AwaitQueue.push (p_task p) (_awaitQueue (this w))))
                    (this w)
    end.

(** A computation that only adds events of one kind to the record. *)
Definition adds {H} (P : Event -> Prop) {A}
    (m : World H -> Res A * World H) : Prop :=
  forall w, exists evs, log (snd (m w)) = log w ++ evs /\ Forall P evs.

(** A computation that leaves the object behind [l] as it is, and whose
    value satisfies [Q]. *)
Definition keeps {H} (l : loc) {A} (m : World H -> Res A * World H)
    (Q : A -> Prop) : Prop :=
  forall w, is_Some (heap w !! l) ->
    heap (snd (m w)) !! l = heap w !! l /\
    forall a, fst (m w) = Ok a -> Q a.

(** A promise whose command holds a reference other than [l]. *)
Definition works_on_copy (l : loc) (p : Promise) : Prop :=
  p_catch p = NoCatch /\
  ((exists id kind l' sid, p_task p = TConsume id kind l' sid /\ l' <> l) \/
   (exists l' label protocol, p_task p = TConsumeData l' label protocol /\ l' <> l)).

(** ** Transports to run the methods on *)

Definition both_kinds : gmap string bool :=
  <["audio" := true]> (<["video" := true]> ∅).

Definition sctp_enabled : JsValue :=
  JsObject [("maxMessageSize", JsNumber 262144)].

Definition video_parameters : JsValue :=
  JsObject [("mid", JsString "0"); ("codecs", JsArray [])].

Definition camera : MediaStreamTrack :=
  {| track_id := "camera"; track_kind := "video"; readyState := "live" |}.

(** A fresh transport of the given direction, an adapter with the given
    script and one parameters object at reference [1]. *)
Definition fresh_world (d : Direction) (script : list bool) : World (list bool) :=
  new_World script (new_Transport d sctp_enabled (JsObject []) both_kinds)
            {[ 1%positive := video_parameters ]}.

Definition video_consumer : ConsumerOptions :=
  {| c_id := JsString "c1"; c_producerId := JsString "p1";
     c_kind := JsString "video"; c_rtpParameters := 1%positive;
     c_streamId := JsUndefined |}.

Definition camera_options (encodings : JsValue) : ProducerOptions :=
  {| track := Some camera; encodings := encodings;
     codecOptions := JsUndefined; codec := JsUndefined;
     stopTracks := JsUndefined; disableTrackOnPause := JsUndefined;
     zeroRtpOnPause := JsUndefined |}.

Definition data_options (maxPacketLifeTime : JsValue) : DataProducerOptions :=
  {| dp_ordered := JsUndefined; dp_maxPacketLifeTime := maxPacketLifeTime;
     dp_maxRetransmits := JsUndefined; dp_label := JsUndefined;
     dp_protocol := JsUndefined |}.

(** ** Values, settings and fingerprints; steps of a transport *)

(** *** The encodings handed to the adapter *)

(** The fields [produce] lets through, each with the type its value must
    have. *)
Definition field_type (k : string) : option JsType :=
  if String.eqb k "active" || String.eqb k "dtx" || String.eqb k "adaptivePtime"
  then Some TyBoolean
  else if String.eqb k "scalabilityMode" || String.eqb k "priority"
          || String.eqb k "networkPriority"
  then Some TyString
  else if String.eqb k "scaleResolutionDownBy" || String.eqb k "maxBitrate"
          || String.eqb k "maxFramerate"
  then Some TyNumber
  else None.

Global Instance JsType_eq_dec : EqDecision JsType.
Proof. solve_decision. Defined.

(** [v === false] *)
Definition is_false (v : JsValue) : bool :=
  match v with JsBool false => true | _ => false end.

(** [o.k] where [o] is known not to be [undefined] or [null]. *)
Definition prop (o : JsValue) (k : string) : JsValue :=
  match get o k with Ok v => v | Throw _ => JsUndefined end.

Definition nullish (v : JsValue) : bool :=
  match v with JsUndefined | JsNull => true | _ => false end.

(** *** The constructor of [Transport] *)

(** [a ?? b] *)
Definition nullish_coalesce (a b : JsValue) : JsValue :=
  if nullish a then b else a.

(** [delete o.k] *)
Definition delete_property (k : string) (o : JsValue) : JsValue :=
  match o with
  | JsObject fs => JsObject (filter (fun kv => kv.1 <> k) fs)
  | _ => o
  end.

(** The settings as the constructor has them after the lines "Clone and
    sanitize additionalSettings", before the generated certificate is
    stored in them.  The clone is a copy with the content of the
    original, as [clone] has it. *)
Definition clonedAdditionalSettings (additionalSettings : JsValue) : JsValue :=
  let cloned := nullish_coalesce additionalSettings (JsObject []) in
  delete_property "sdpSemantics"
    (delete_property "rtcpMuxPolicy"
       (delete_property "bundlePolicy"
          (delete_property "iceTransportPolicy"
             (delete_property "iceServers" cloned)))).

Definition overridden_settings : list string :=
  ["iceServers"; "iceTransportPolicy"; "bundlePolicy"; "rtcpMuxPolicy";
   "sdpSemantics"].

(** *** The getter [fingerprints] *)

Record RTCDtlsFingerprint : Type := {
  fp_algorithm : option string;
  fp_value : option string
}.

(** [String.prototype.toUpperCase] on text in ASCII, which is what the
    value of a fingerprint is. *)
Definition upper_ascii (c : Ascii.ascii) : Ascii.ascii :=
  let n := Ascii.nat_of_ascii c in
  if (97 <=? n)%nat && (n <=? 122)%nat then Ascii.ascii_of_nat (n - 32) else c.

Fixpoint toUpperCase (s : string) : string :=
  match s with
  | EmptyString => EmptyString
  | String c s' => String (upper_ascii c) (toUpperCase s')
  end.

(** [get fingerprints()]: [certificate] is [this._certificate], absent
    until the certificate has been generated, and stands for what its
    [getFingerprints()] returns. *)
Definition fingerprints (certificate : option (list RTCDtlsFingerprint))
  : Res (list RTCDtlsFingerprint) :=
  match certificate with
  | None => Throw (TypeError "cannot read properties of undefined or null")
  | Some fps =>
      Ok ((fun f => {| fp_algorithm := fp_algorithm f;
                       fp_value := toUpperCase <$> fp_value f |}) <$> fps)
  end.

(** The characters of a fingerprint value: hexadecimal digits and the
    colons between the bytes; and those among them that upper case
    leaves. *)
Definition is_hex_colon (c : Ascii.ascii) : bool :=
  let n := Ascii.nat_of_ascii c in
  ((48 <=? n) && (n <=? 58) || (65 <=? n) && (n <=? 70)
   || (97 <=? n) && (n <=? 102))%nat.

Definition is_upper_hex_colon (c : Ascii.ascii) : bool :=
  let n := Ascii.nat_of_ascii c in
  ((48 <=? n) && (n <=? 58) || (65 <=? n) && (n <=? 70))%nat.

Fixpoint all_chars (p : Ascii.ascii -> bool) (s : string) : bool :=
  match s with
  | EmptyString => true
  | String c s' => p c && all_chars p s'
  end.

Definition hex_fingerprint (f : RTCDtlsFingerprint) : bool :=
  match fp_value f with
  | Some v => all_chars is_hex_colon v
  | None => true
  end.

(** *** Everything that can happen to a transport *)

Inductive Action : Type :=
| ACall (i : Invocation)
| ARaise (s : Stimulus)
| ASettle (p : Promise) (f : Fate).

Definition perform {H} `{!HandlerInterface H} `{!Ortc} (a : Action)
    (w : World H) : World H :=
  match a with
  | ACall i => snd (invoke i w)
  | ARaise s => snd (react s w)
  | ASettle p f => snd (settle p f w)
  end.

Definition perform_all {H} `{!HandlerInterface H} `{!Ortc}
    (l : list Action) (w : World H) : World H :=
  foldl (fun w a => perform a w) w l.

(** What is fixed at construction stays, and a closed transport stays
    closed. *)
Definition same_config (t t' : Transport) : Prop :=
  _direction t' = _direction t /\
  _extendedRtpCapabilities t' = _extendedRtpCapabilities t /\
  _canProduceByKind t' = _canProduceByKind t /\
  _maxSctpMessageSize t' = _maxSctpMessageSize t /\
  (_closed t = true -> _closed t' = true).

(** A computation whose effect on the transport object lies in [R]. *)
Definition moves {H} (R : Transport -> Transport -> Prop) {A}
    (m : World H -> Res A * World H) : Prop :=
  forall w, R (this w) (this (snd (m w))).

(** The only change a command makes to the transport object. *)
Definition marks_probator (t t' : Transport) : Prop :=
  t' = t \/ t' = set_probatorConsumerCreated true t.

(** The gathering state the adapter raised last, if it raised any. *)
Definition last_gathering (l : list Stimulus) (g : IceGatheringState)
  : IceGatheringState :=
  fold_left (fun g s => match s with
                        | RaiseIceGatheringStateChange x => x
                        | _ => g
                        end) l g.

Definition is_close (s : Stimulus) : bool :=
  match s with DoClose => true | _ => false end.

(** The adapter call behind each operation that is a single call, keyed
    by what the caller passed. *)
Definition lifecycle_call (i : Invocation) : option HandlerCall :=
  match i with
  | IRestartIce iceParameters => Some (HRestartIce iceParameters)
  | IUpdateIceServers iceServers => Some (HUpdateIceServers iceServers)
  | ICloseProducer localId => Some (HStopSending localId)
  | IPauseProducer localId => Some (HPauseSending localId)
  | IResumeProducer localId => Some (HResumeSending localId)
  | IReplaceTrack localId track => Some (HReplaceTrack localId track)
  | ISetMaxSpatialLayer localId n => Some (HSetMaxSpatialLayer localId n)
  | ISetRtpEncodingParameters localId ps =>
      Some (HSetRtpEncodingParameters localId ps)
  | ICloseConsumer localId => Some (HStopReceiving [localId])
  | IPauseConsumer localId => Some (HPauseReceiving [localId])
  | IResumeConsumer localId => Some (HResumeReceiving [localId])
  | IGetStats => Some HGetTransportStats
  | IGetProducerStats localId => Some (HGetSenderStats localId)
  | IGetConsumerStats localId => Some (HGetReceiverStats localId)
  | IProduce _ | IProduceData _ | IConsume _ | IConsumeData _ => None
  end.

Definition is_enqueue (e : Event) : bool :=
  match e with Enqueue _ => true | _ => false end.

(** The argument an operation insists on before it submits: the [else if]
    after the closed check in [restartIce] and [updateIceServers]; the
    other single-call operations look at none. *)
Definition argument_given (i : Invocation) : bool :=
  match i with
  | IRestartIce iceParameters => truthy iceParameters
  | IUpdateIceServers iceServers => isArray iceServers
  | _ => true
  end.

(** ** The transport with its queue at work *)

(** What happens to a transport: the application calls a method; the
    adapter raises an event or the application calls [close()]; the
    command that is executing runs to its end. *)
Inductive Move : Type :=
| MInvoke (i : Invocation)
| MRaise (s : Stimulus)
| MFinish.

(** A command that was executed: the task, whether it succeeded, and
    what was recorded while it ran and its promise settled. *)
Record Run : Type := {
  run_command : Task;
  run_ok : bool;
  run_events : list Event
}.

(** A transport together with the promises it has handed out for the
    commands still in its queue, oldest first; what has been put into
    the queue and what the queue has let be observed, since the
    transport was created; and the commands executed so far. *)
Record System (H : Type) : Type := {
  sys_world : World H;
  sys_promises : list Promise;
  sys_inputs : list (AwaitQueue.input Task);
  sys_obs : list (AwaitQueue.obs Task);
  sys_runs : list Run
}.
Arguments sys_world {H} _.
Arguments sys_promises {H} _.
Arguments sys_inputs {H} _.
Arguments sys_obs {H} _.
Arguments sys_runs {H} _.

Definition sys_start {H} (w : World H) : System H :=
  {| sys_world := w; sys_promises := []; sys_inputs := []; sys_obs := [];
     sys_runs := [] |}.

Definition with_queue {H} (q : AwaitQueue.t Task) (w : World H) : World H :=
  {| this := set_awaitQueue q (this w); handler := handler w;
     heap := heap w; log := log w |}.

(** The promises of commands the queue rejects settle as rejected. *)
Definition reject_all {H} `{!HandlerInterface H} `{!Ortc}
    (ps : list Promise) (w : World H) : World H :=
  foldl (fun w p => snd (settle p Stopped w)) w ps.

(** One move.  A method that submits hands its command to the queue,
    which takes it or, being stopped, rejects it at once.  [close()] on
    an open transport stops the queue, which rejects the commands that
    wait.  When the command the queue has let in runs to its end, its
    promise settles, the queue learns how the command ended and lets
    the next one in. *)
Definition sys_step {H} `{!HandlerInterface H} `{!Ortc}
    (s : System H) (m : Move) : System H :=
  let w := sys_world s in
  let q := _awaitQueue (this w) in
  match m with
  | MInvoke i =>
      match invoke i w with
      | (Ok (Submitted p), w1) =>
          {| sys_world :=
               if AwaitQueue.stopped q then snd (settle p Stopped w1) else w1;
             sys_promises :=
               if AwaitQueue.stopped q then sys_promises s
               else sys_promises s ++ [p];
             sys_inputs := sys_inputs s ++ [AwaitQueue.Push (p_task p)];
             sys_obs := sys_obs s ++ snd (AwaitQueue.push (p_task p) q);
             sys_runs := sys_runs s |}
      | (_, w1) =>
          {| sys_world := w1; sys_promises := sys_promises s;
             sys_inputs := sys_inputs s; sys_obs := sys_obs s;
             sys_runs := sys_runs s |}
      end
  | MRaise DoClose =>
      if _closed (this w) then
        {| sys_world := snd (react DoClose w); sys_promises := sys_promises s;
           sys_inputs := sys_inputs s; sys_obs := sys_obs s;
           sys_runs := sys_runs s |}
      else
        let n := length (option_list (AwaitQueue.running q)) in
        {| sys_world :=
             reject_all (drop n (sys_promises s)) (snd (react DoClose w));
           sys_promises := take n (sys_promises s);
           sys_inputs := sys_inputs s ++ [AwaitQueue.Stop];
           sys_obs := sys_obs s ++ snd (AwaitQueue.stop q);
           sys_runs := sys_runs s |}
  | MRaise ev =>
      {| sys_world := snd (react ev w); sys_promises := sys_promises s;
         sys_inputs := sys_inputs s; sys_obs := sys_obs s;
         sys_runs := sys_runs s |}
  | MFinish =>
      match AwaitQueue.running q, sys_promises s with
      | Some t, p :: rest =>
          let ok := returned (fst (run_task t w)) in
          let w1 := snd (settle p Executed w) in
          let q1 := _awaitQueue (this w1) in
          {| sys_world := with_queue (fst (AwaitQueue.settle ok q1)) w1;
             sys_promises := rest;
             sys_inputs := sys_inputs s ++ [AwaitQueue.Settle ok];
             sys_obs := sys_obs s ++ snd (AwaitQueue.settle ok q1);
             sys_runs := sys_runs s ++
                         [{| run_command := t; run_ok := ok;
                             run_events := since w w1 |}] |}
      | _, _ => s
      end
  end.

Definition sys_run {H} `{!HandlerInterface H} `{!Ortc}
    (s : System H) (ms : list Move) : System H :=
  foldl sys_step s ms.

(** The commands the methods recorded as submitted. *)
Definition enqueued (evs : list Event) : list Task :=
  omap (fun e => match e with Enqueue t => Some t | _ => None end) evs.

(** The adapter calls only commands make: all but the three statistics
    getters and [close]. *)
Definition is_command_call (e : Event) : bool :=
  match e with
  | Call (HGetTransportStats | HGetSenderStats _ | HGetReceiverStats _
          | HClose) _ => false
  | Call _ _ => true
  | _ => false
  end.

Definition run_calls (r : Run) : list Event :=
  filter is_adapter_call (run_events r).

(** What ties a transport at work to its queue. *)
Record sys_consistent {H} `{!HandlerInterface H} `{!Ortc}
    (w0 : World H) (s : System H) : Prop := {
  sc_queue :
    _awaitQueue (this (sys_world s)) =
      fst (AwaitQueue.run AwaitQueue.empty (sys_inputs s));
  sc_obs : sys_obs s = snd (AwaitQueue.run AwaitQueue.empty (sys_inputs s));
  sc_log : log (sys_world s) = log w0 ++ since w0 (sys_world s);
  sc_submitted :
    AwaitQueue.submitted (sys_inputs s) = enqueued (since w0 (sys_world s));
  sc_promises :
    p_task <$> sys_promises s =
      option_list (AwaitQueue.running (_awaitQueue (this (sys_world s)))) ++
      AwaitQueue.waiting (_awaitQueue (this (sys_world s)));
  sc_runs :
    (fun r => (run_command r, run_ok r)) <$> sys_runs s =
      AwaitQueue.finished (sys_obs s);
  sc_calls :
    filter is_command_call (since w0 (sys_world s)) =
      concat (run_calls <$> sys_runs s);
  sc_each :
    Forall (fun r => exists w : World H,
              run_calls r = since w (snd (run_task (run_command r) w)) /\
              run_ok r = returned (fst (run_task (run_command r) w)))
           (sys_runs s)
}.

(** * Facts *)

(** ** The command queue *)

Section QueueFacts.
Import AwaitQueue.
Context {T : Type}.
Implicit Types (q : AwaitQueue.t T) (ins : list (input T)) (os : list (obs T)).

Lemma run_snoc q ins i :
  run q (ins ++ [i]) =
  (fst (step (fst (run q ins)) i),
   snd (run q ins) ++ snd (step (fst (run q ins)) i)).
Proof.
  revert q. induction ins as [|j ins IH]; intros q; simpl.
  - destruct (step q i) as [q1 o1]. simpl. by rewrite app_nil_r.
  - destruct (step q j) as [q1 o1]. rewrite IH.
    destruct (run q1 ins) as [q2 o2]. simpl. by rewrite app_assoc.
Qed.

Lemma serial_app cur os1 os2 :
  serial cur (os1 ++ os2) <-> serial cur os1 /\ serial (inside cur os1) os2.
Proof.
  revert cur. induction os1 as [|o os1 IH]; intros cur; simpl.
  - tauto.
  - destruct o; rewrite ?IH; tauto.
Qed.

Lemma inside_app cur os1 os2 :
  inside cur (os1 ++ os2) = inside (inside cur os1) os2.
Proof.
  revert cur. induction os1 as [|o os1 IH]; intros cur; simpl; [done|].
  destruct o; apply IH.
Qed.

Lemma serial_rejects cur (l : list T) : serial cur (RejectStopped <$> l).
Proof. induction l; simpl; auto. Qed.

Lemma inside_rejects cur (l : list T) : inside cur (RejectStopped <$> l) = cur.
Proof. induction l; simpl; auto. Qed.

Lemma begun_app os1 os2 : begun (os1 ++ os2) = begun os1 ++ begun os2.
Proof. apply omap_app. Qed.
Lemma rejected_app os1 os2 : rejected (os1 ++ os2) = rejected os1 ++ rejected os2.
Proof. apply omap_app. Qed.
Lemma finished_app os1 os2 : finished (os1 ++ os2) = finished os1 ++ finished os2.
Proof. apply omap_app. Qed.
Lemma submitted_app ins1 ins2 : submitted (ins1 ++ ins2) = submitted ins1 ++ submitted ins2.
Proof. apply omap_app. Qed.

Lemma begun_rejects (l : list T) : begun (RejectStopped <$> l) = [].
Proof. induction l; simpl; auto. Qed.
Lemma finished_rejects (l : list T) : finished (RejectStopped <$> l) = [].
Proof. induction l; simpl; auto. Qed.
Lemma rejected_rejects (l : list T) : rejected (RejectStopped <$> l) = l.
Proof. induction l; simpl; f_equal; auto. Qed.

Lemma consistent_empty : consistent (T:=T) [] empty [].
Proof. by split. Qed.

Lemma has_stop_snoc ins i :
  has_stop (ins ++ [i]) =
  has_stop ins || match i with Stop => true | _ => false end.
Proof. unfold has_stop. rewrite existsb_app. simpl. by rewrite orb_false_r. Qed.

Ltac queue_norm :=
  rewrite ?serial_app, ?inside_app, ?begun_app, ?rejected_app, ?finished_app,
    ?submitted_app, ?fmap_app, ?inside_rejects, ?begun_rejects,
    ?finished_rejects, ?rejected_rejects;
  simpl; rewrite ?app_nil_r, <- ?app_assoc; simpl.

Lemma consistent_step ins q os i :
  consistent ins q os ->
  consistent (ins ++ [i]) (fst (step q i)) (os ++ snd (step q i)).
Proof.
  intros [Hs Hi Ha Hr Hst Hb Hid Hsp].
  destruct q as [wt rn st]; simpl in *.
  destruct st;
    [specialize (Hst eq_refl); subst wt; clear Hr
    | specialize (Hr eq_refl); clear Hst];
    (destruct rn as [y|]; [|try rewrite (Hid eq_refl) in *]);
    destruct i as [x|ok|]; simpl; unfold push, settle, stop; simpl;
    try (destruct wt as [|z wt]; simpl);
    split; queue_norm; rewrite ?has_stop_snoc, <- ?Hsp, ?Hi, ?Ha, ?Hb, ?Hr;
    queue_norm; auto using serial_rejects; try done.
Qed.

Lemma run_consistent ins :
  consistent ins (fst (run empty ins)) (snd (run empty ins)).
Proof.
  induction ins as [|i ins IH] using rev_ind.
  - apply consistent_empty.
  - rewrite run_snoc. simpl. by apply consistent_step.
Qed.
Lemma stopped_rejects q x :
  stopped q = true -> push x q = (q, [RejectStopped x]).
Proof. intros E. unfold push. by rewrite E. Qed.

Lemma pending_waiting ins q os :
  consistent ins q os -> pending ins os = waiting q.
Proof.
  intros [_ _ Ha _ _ _ _ _]. unfold pending.
  by rewrite Ha, app_assoc, <- length_app, drop_app_length.
Qed.

Lemma step_reaction ins q os i :
  consistent ins q os -> snd (step q i) = reaction ins os i.
Proof.
  intros Hc. pose proof (pending_waiting _ _ _ Hc) as Hp.
  destruct Hc as [_ Hi _ _ Hst _ Hid Hsp].
  unfold reaction. rewrite Hp, Hi, <- Hsp.
  destruct q as [wt rn st]; simpl in *.
  destruct i as [x|ok|]; simpl; unfold push, settle, stop; simpl.
  - destruct st; [done|].
    destruct rn as [y|]; [done|]. by rewrite (Hid eq_refl).
  - destruct rn as [y|]; [|done]. by destruct wt.
  - done.
Qed.

Lemma run_reaction ins i :
  snd (run empty (ins ++ [i])) =
  snd (run empty ins) ++ reaction ins (snd (run empty ins)) i.
Proof.
  rewrite run_snoc. simpl. f_equal.
  apply step_reaction, run_consistent.
Qed.

Lemma stop_then_settle ins x ok :
  inside None (snd (run empty ins)) = Some x ->
  inside None (snd (run empty (ins ++ [Stop]))) = Some x /\
  snd (run empty (ins ++ [Stop; Settle ok])) =
    snd (run empty ins) ++
    (RejectStopped <$> pending ins (snd (run empty ins))) ++ [End x ok].
Proof.
  intros Hx.
  pose proof (run_consistent ins) as Hc.
  pose proof (pending_waiting _ _ _ Hc) as Hp.
  destruct Hc as [_ Hi _ _ _ _ _ _]. rewrite Hi in Hx.
  replace (ins ++ [Stop; Settle ok]) with ((ins ++ [Stop]) ++ [Settle ok])
    by (by rewrite <- app_assoc).
  rewrite (run_snoc empty (ins ++ [Stop]) (Settle ok)).
  rewrite (run_snoc empty ins Stop). simpl.
  rewrite inside_app, inside_rejects, Hi, Hp. split; [done|].
  rewrite <- app_assoc. do 2 f_equal.
  unfold settle. simpl. by rewrite Hx.
Qed.

End QueueFacts.

(** ** The transports *)

Section Facts.
Context {H : Type} `{!HandlerInterface H} `{!Ortc}.
Implicit Types (w : World H).
Local Abbreviation submits_or_fails := (submits_or_fails (H:=H)).
Local Abbreviation adds := (adds (H:=H)).
Local Abbreviation keeps := (keeps (H:=H)).
Local Abbreviation moves := (moves (H:=H)).

Lemma since_app w w' new : log w' = log w ++ new -> since w w' = new.
Proof. intros E. unfold since. rewrite E. by rewrite drop_app_length. Qed.

Lemma since_refl w : since w w = [].
Proof. apply since_app. by rewrite app_nil_r. Qed.

(** C6, as amended.  After any call of [close()] a further call returns
    at once and changes nothing.  On a closed transport [close()] is that
    no-op.  On an open one it sets the closed flag, stops the queue and
    asks the adapter to close; when the adapter's [close] returns, the
    connection state is forced to closed, exactly one shutdown
    notification is raised and [close()] returns normally; when the
    adapter's [close] throws, the failure reaches the caller of
    [close()], the connection state is left as it was and no shutdown
    notification is raised. *)
Theorem close_once (w : World H) :
  let w' := snd (close w) in
  close w' = (Ok tt, w') /\
  match _closed (this w), fst (fst (handle HClose (handler w) (heap w))) with
  | true, _ => close w = (Ok tt, w)
  | false, Ok _ =>
      fst (close w) = Ok tt /\
      _closed (this w') = true /\
      _awaitQueue (this w') = fst (AwaitQueue.stop (_awaitQueue (this w))) /\
      _connectionState (this w') = ConnClosed /\
      since w w' = [Call HClose true; Observer_close]
  | false, Throw e =>
      fst (close w) = Throw e /\
      _closed (this w') = true /\
      _awaitQueue (this w') = fst (AwaitQueue.stop (_awaitQueue (this w))) /\
      _connectionState (this w') = _connectionState (this w) /\
      since w w' = [Call HClose false]
  end.
Proof.
  destruct w as [t h hp lg].
  unfold close, bind, read, update, call, record, ret; simpl.
  destruct (_closed t) eqn:Hc; simpl.
  - rewrite Hc. done.
  - destruct (handle HClose h hp) as [[r h'] hp'] eqn:Hh; simpl.
    destruct r as [[]|e]; simpl; repeat split; try done;
      apply since_app; simpl; by rewrite <- ?app_assoc.
Qed.

Lemma since_grown t (h : H) hp lg t' (h' : H) hp' (new : list Event) :
  since {| this := t; handler := h; heap := hp; log := lg |}
        {| this := t'; handler := h'; heap := hp'; log := lg ++ new |} = new.
Proof. by apply since_app. Qed.

Lemma since_same t (h : H) hp lg t' (h' : H) hp' :
  since {| this := t; handler := h; heap := hp; log := lg |}
        {| this := t'; handler := h'; heap := hp'; log := lg |} = [].
Proof. apply since_app. simpl. by rewrite app_nil_r. Qed.

Ltac since_simpl :=
  simpl; rewrite <- ?app_assoc; simpl;
  rewrite ?since_grown, ?since_same, ?app_nil_r; simpl.

Lemma react_log (w : World H) (s : Stimulus) :
  let w' := snd (react s w) in
  log w' = log w ++ since w w' /\
  filter is_notification (since w w') = expected_notifications (this w) s.
Proof.
  destruct w as [t h hp lg].
  destruct s as [|d|x|x]; simpl.
  - unfold close, bind, read, update, call, record, ret; simpl.
    destruct (_closed t) eqn:E; simpl; [by since_simpl|].
    destruct (handle HClose h hp) as [[r h'] hp']; simpl.
    destruct r as [[]|e]; simpl.
    + by since_simpl.
    + by since_simpl.
  - unfold on_connect, bind, read, record; simpl.
    destruct (_closed t); simpl.
    + by since_simpl.
    + by since_simpl.
  - unfold on_icegatheringstatechange, bind, read, update, record, ret; simpl.
    case_bool_decide as E; simpl.
    + rewrite bool_decide_false by naive_solver. by since_simpl.
    + rewrite bool_decide_true by done. destruct (_closed t); simpl.
      * by since_simpl.
      * by since_simpl.
  - unfold on_connectionstatechange, bind, read, update, record, ret; simpl.
    case_bool_decide as E; simpl.
    + rewrite bool_decide_false by naive_solver. by since_simpl.
    + rewrite bool_decide_true by done. destruct (_closed t); simpl.
      * by since_simpl.
      * by since_simpl.
Qed.

Lemma expected_run_closed (c c' : bool) (a : Axes) (l : list Stimulus) :
  ax_closed a = true -> expected_run c a l = expected_run c' a l.
Proof.
  revert a. induction l as [|s l IH]; intros a Ha; simpl; [done|].
  destruct a as [cl g c0]. simpl in Ha. subst cl.
  destruct s as [|d|x|x]; simpl;
    match goal with
    | |- context [expected_run c ?A l] => by rewrite (IH A)
    end.
Qed.

Lemma react_expected (w : World H) (s : Stimulus) :
  let w' := snd (react s w) in
  log w' = log w ++ since w w' /\
  filter is_notification (since w w') =
    snd (expected_step (adapter_closes w) (axes_of (this w)) s) /\
  axes_of (this w') =
    fst (expected_step (adapter_closes w) (axes_of (this w)) s) /\
  (_closed (this w') = true \/ (handler w' = handler w /\ heap w' = heap w)).
Proof.
  destruct w as [t h hp lg]. unfold adapter_closes.
  destruct s as [|d|x|x]; simpl.
  - unfold close, bind, read, update, call, record, ret; simpl.
    destruct (_closed t) eqn:E; simpl.
    { since_simpl. unfold axes_of. simpl. rewrite E. simpl.
      repeat split; auto. }
    destruct (handle HClose h hp) as [[[[]|e] h'] hp']; simpl;
      since_simpl; unfold axes_of; simpl; repeat split; auto.
  - unfold on_connect, bind, read, record; simpl.
    destruct (_closed t) eqn:Hc; simpl; since_simpl; unfold axes_of;
      rewrite ?Hc; repeat split; auto.
  - unfold on_icegatheringstatechange, bind, read, update, record, ret; simpl.
    case_bool_decide as E; simpl.
    + rewrite bool_decide_false by naive_solver. since_simpl.
      subst x. unfold axes_of. destruct t; repeat split; auto.
    + rewrite bool_decide_true by done.
      destruct (_closed t) eqn:Hc; simpl; since_simpl; unfold axes_of; simpl;
        rewrite ?Hc; repeat split; auto.
  - unfold on_connectionstatechange, bind, read, update, record, ret; simpl.
    case_bool_decide as E; simpl.
    + rewrite bool_decide_false by naive_solver. since_simpl.
      subst x. unfold axes_of. destruct t; repeat split; auto.
    + rewrite bool_decide_true by done.
      destruct (_closed t) eqn:Hc; simpl; since_simpl; unfold axes_of; simpl;
        rewrite ?Hc; repeat split; auto.
Qed.

(** C4, as amended.  Along every sequence of adapter-raised events and
    [close()] calls, the notifications emitted and the values stored
    are exactly those expected: a gathering or connection state the
    adapter raises is stored, and it is notified, once, when it differs
    from the value stored before and the transport is not closed; an
    identical value notifies nothing, a value raised after [close()] is
    stored without notification, and the assignment of closed that
    [close()] makes itself, when the adapter's [close] returns, is not
    notified. *)
Theorem notifications_only_for_adapter_changes_while_open
    (l : list Stimulus) (w : World H) :
  let w' := react_all l w in
  log w' = log w ++ since w w' /\
  filter is_notification (since w w') =
    snd (expected_run (adapter_closes w) (axes_of (this w)) l) /\
  axes_of (this w') =
    fst (expected_run (adapter_closes w) (axes_of (this w)) l).
Proof.
  revert w. induction l as [|s l IH]; intros w; simpl.
  - by rewrite since_refl, app_nil_r.
  - destruct (react_expected w s) as (Hl & Hn & Ha & Hk).
    simpl in Hl, Hn, Ha, Hk.
    destruct (IH (snd (react s w))) as (Hl' & Hn' & Ha').
    simpl in Hl', Hn', Ha'.
    assert (E : log (react_all l (snd (react s w))) =
                log w ++ since w (snd (react s w)) ++
                since (snd (react s w)) (react_all l (snd (react s w)))).
    { rewrite Hl' at 1. rewrite Hl at 1. by rewrite <- app_assoc. }
    rewrite (since_app _ _ _ E). split; [exact E|].
    rewrite filter_app, Hn, Hn', Ha', Ha.
    assert (Hr : expected_run (adapter_closes (snd (react s w)))
                   (fst (expected_step (adapter_closes w)
                                       (axes_of (this w)) s)) l =
                 expected_run (adapter_closes w)
                   (fst (expected_step (adapter_closes w)
                                       (axes_of (this w)) s)) l).
    { destruct Hk as [Hk|[Hh Hp]].
      - apply expected_run_closed. rewrite <- Ha. exact Hk.
      - unfold adapter_closes. by rewrite Hh, Hp. }
    rewrite Hr.
    destruct (expected_step (adapter_closes w) (axes_of (this w)) s)
      as [a1 n1].
    simpl. by destruct (expected_run (adapter_closes w) a1 l) as [a2 n2].
Qed.

Lemma react_closed w s :
  _closed (this w) = true ->
  let w' := snd (react s w) in
  _closed (this w') = true /\
  filter is_notification (since w w') = [] /\
  log w' = log w ++ since w w' /\
  _connectionState (this w') = last_raised [s] (_connectionState (this w)).
Proof.
  intros Hc. destruct w as [t h hp lg]. simpl in Hc.
  pose proof (react_log
                {| this := t; handler := h; heap := hp; log := lg |} s) as [Hl Hn].
  simpl. split; [|split; [|split; [exact Hl|]]].
  - destruct s as [|d|x|x]; simpl;
      unfold close, on_connect, on_icegatheringstatechange,
        on_connectionstatechange, bind, read, update, record, ret; simpl;
      rewrite ?Hc; simpl; try done; case_bool_decide; simpl; rewrite ?Hc; done.
  - rewrite Hn. destruct s; simpl; rewrite ?Hc, ?andb_false_r; done.
  - destruct s as [|d|x|x]; simpl;
      unfold close, on_connect, on_icegatheringstatechange,
        on_connectionstatechange, bind, read, update, record, ret; simpl;
      rewrite ?Hc; simpl; try done; case_bool_decide; simpl; rewrite ?Hc; simpl; done.
Qed.

(** C3, as amended.  Once the transport is closed, whatever the adapter
    raises and however often [close()] is called again: the closed flag
    stays set, no gathering or connection notification is emitted, and
    the connection state is the value the adapter raised last, or the
    one it had if the adapter raised none; so it stays closed as long
    as every connection state the adapter raises is closed. *)
Theorem after_close_state_follows_adapter (l : list Stimulus) (w : World H) :
  _closed (this w) = true ->
  let w' := react_all l w in
  _closed (this w') = true /\
  filter is_notification (since w w') = [] /\
  _connectionState (this w') = last_raised l (_connectionState (this w)) /\
  (_connectionState (this w) = ConnClosed ->
   Forall (fun s => forall x, s = RaiseConnectionStateChange x -> x = ConnClosed) l ->
   _connectionState (this w') = ConnClosed).
Proof.
  intros Hc. simpl.
  assert (G : _closed (this (react_all l w)) = true /\
              (exists new, log (react_all l w) = log w ++ new /\
                           filter is_notification new = []) /\
              _connectionState (this (react_all l w)) =
                last_raised l (_connectionState (this w))).
  { revert w Hc. induction l as [|s l IH]; intros w Hc; simpl.
    - split; [done|]. split; [|done]. exists []. by rewrite app_nil_r.
    - destruct (react_closed w s Hc) as (Hc1 & Hn1 & Hl1 & Hs1).
      destruct (IH _ Hc1) as (Hc2 & (new & Hl2 & Hn2) & Hs2).
      split; [done|]. split.
      + exists (since w (react s w).2 ++ new). rewrite Hl2, Hl1.
        rewrite <- app_assoc. split; [done|].
        by rewrite filter_app, Hn1, Hn2.
      + rewrite Hs2. f_equal. exact Hs1. }
  destruct G as (G1 & (new & G2 & G3) & G4).
  split; [done|]. split; [by rewrite (since_app _ _ _ G2)|]. split; [done|].
  intros Hclosed Hall. rewrite G4, Hclosed. clear -Hall.
  induction Hall as [|s l Hs _ IH]; simpl; [done|].
  destruct s; simpl; try exact IH. by rewrite (Hs _ eq_refl).
Qed.



Ltac monad_simpl :=
  unfold bind, read, update, record, ret, throw, lift, try_catch, enqueue,
    push, call, alloc, clone, on_object, void in *; simpl in *.

(** C7.  [consume()] decides as the checks of the specification do, in
    their order: when one of them fails, [consume()] throws a failure
    of that class, and neither the record (no adapter call, no
    submission), the transport nor the adapter has changed; when all
    pass, the command is submitted to the queue and the promise for it
    returned, the adapter still not invoked. *)
Theorem consume_preflight_then_enqueue (w : World H) (o : ConsumerOptions) :
  let can := fst (canReceive (heap w !!! c_rtpParameters o)
                             (_extendedRtpCapabilities (this w))) in
  let r := fst (consume o w) in
  let w' := snd (consume o w) in
  match consume_preflight_spec (this w) o can with
  | Some f =>
      (exists e, r = Throw e /\ failure_class e = Some f) /\
      since w w' = [] /\ this w' = this w /\ handler w' = handler w
  | None =>
      exists id kind l,
        c_id o = JsString id /\ c_kind o = JsString kind /\
        r = Ok {| p_task := TConsume id kind l (c_streamId o);
                  p_catch := NoCatch |} /\
        since w w' = [Enqueue (TConsume id kind l (c_streamId o))] /\
        handler w' = handler w /\
        _awaitQueue (this w') =
          fst (AwaitQueue.push (TConsume id kind l (c_streamId o))
                               (_awaitQueue (this w)))
  end.
Proof.
  destruct w as [t h hp lg]. destruct o as [id pid kind l sid]. simpl.
  unfold consume, consume_preflight_spec, ortc_canReceive. monad_simpl.
  destruct (_closed t); simpl.
  { since_simpl. eauto 10. }
  case_bool_decide as Hd; simpl; [|since_simpl; eauto 10].
  destruct id as [| | | |id| |]; simpl; try (since_simpl; by eauto 10).
  destruct pid as [| | | |pid| |]; simpl; try (since_simpl; by eauto 10).
  destruct kind as [| | | |kind| |]; simpl; try (since_simpl; by eauto 10).
  destruct (String.eqb kind "audio") eqn:Ea; simpl.
  - rewrite lookup_total_insert_eq.
    destruct (canReceive (hp !!! l) (_extendedRtpCapabilities t)) as [can v']; simpl.
    destruct can; simpl; since_simpl; eauto 12.
  - destruct (String.eqb kind "video") eqn:Ev; simpl.
    + rewrite lookup_total_insert_eq.
      destruct (canReceive (hp !!! l) (_extendedRtpCapabilities t)) as [can v']; simpl.
      destruct can; simpl; since_simpl; eauto 12.
    + since_simpl; eauto 10.
Qed.


Ltac methods_unfold :=
  unfold invoke, submitting, answering, getStats, restartIce, updateIceServers,
    produce, produceData, closeProducer, pauseProducer, resumeProducer,
    replaceTrack, setMaxSpatialLayer, setRtpEncodingParameters,
    getProducerStats, consume, consumeData, closeConsumer, pauseConsumer,
    resumeConsumer, getConsumerStats, ortc_canReceive,
    ortc_validateSctpStreamParameters, ortc_validateRtpParameters,
    ortc_generateProbatorRtpParameters in *.

Lemma produce_encodings_checked_in_task track encodings codecOptions codec w :
  truthy encodings = true -> isArray encodings = false ->
  run_task (TProduce track encodings codecOptions codec) w =
    (Throw (TypeError "encodings must be an array"), w).
Proof.
  intros Ht Ha. simpl. unfold produce_task, normalizeEncodings.
  rewrite Ht, Ha. by monad_simpl.
Qed.


Lemma sf_throw e : submits_or_fails (throw e).
Proof. by intros w. Qed.

Lemma sf_enqueue t c : submits_or_fails (enqueue t c).
Proof. by intros [tr h hp lg]. Qed.

Lemma sf_read k :
  (forall t, submits_or_fails (k t)) -> submits_or_fails (bind read k).
Proof. intros Hk w. unfold bind, read. simpl. apply Hk. Qed.

Lemma sf_clone l k :
  (forall l', submits_or_fails (k l')) -> submits_or_fails (bind (clone l) k).
Proof.
  intros Hk [tr h hp lg]. unfold bind, clone, alloc. simpl.
  specialize (Hk (fresh (dom hp))
                 {| this := tr; handler := h;
                    heap := <[fresh (dom hp) := hp !!! l]> hp; log := lg |}).
  simpl in Hk. exact Hk.
Qed.

Lemma sf_on_object {A} (f : JsValue -> A * JsValue) l k :
  (forall a, submits_or_fails (k a)) ->
  submits_or_fails (bind (on_object f l) k).
Proof.
  intros Hk [tr h hp lg]. unfold bind, on_object. simpl.
  destruct (f (hp !!! l)) as [a v']. 
  specialize (Hk a {| this := tr; handler := h;
                      heap := <[l := v']> hp; log := lg |}).
  simpl in Hk. exact Hk.
Qed.

Lemma sf_bind_bind {A B} (m : M A) (k : A -> M B) (k' : B -> M Promise) :
  submits_or_fails (bind m (fun a => bind (k a) k')) ->
  submits_or_fails (bind (bind m k) k').
Proof.
  intros Hk w. specialize (Hk w). unfold bind in *.
  destruct (m w) as [[a|e] w1]; simpl in *; exact Hk.
Qed.

Lemma sf_bind_throw {A} e (k : A -> M Promise) :
  submits_or_fails (bind (throw e) k).
Proof. by intros w. Qed.

Lemma sf_bind_ret {A} (a : A) (k : A -> M Promise) :
  submits_or_fails (k a) -> submits_or_fails (bind (ret a) k).
Proof. intros Hk w. apply Hk. Qed.

Ltac sf_step :=
  first
    [ apply sf_throw | apply sf_enqueue
    | apply sf_read; intros ?
    | apply sf_clone; intros ?
    | apply sf_on_object; intros ?
    | apply sf_bind_bind
    | apply sf_bind_throw
    | apply sf_bind_ret
    | match goal with
      | |- submits_or_fails (bind (match ?x with _ => _ end) _) => destruct x
      | |- submits_or_fails (if ?b then _ else _) => destruct b
      | |- submits_or_fails (match ?x with _ => _ end) => destruct x
      end ].

Lemma invoke_submits_or_fails (i : Invocation) :
  enqueues i = true ->
  exists m, invoke i = submitting m /\ submits_or_fails m.
Proof.
  intros He.
  destruct i; try discriminate He; (eexists; split; [reflexivity|]);
    methods_unfold; cbv zeta; repeat sf_step.
Qed.

Lemma run_task_failure_origin (t : Task) (w2 w3 : World H) e :
  run_task t w2 = (Throw e, w3) ->
  (exists track encodings codecOptions codec,
     t = TProduce track encodings codecOptions codec /\
     normalizeEncodings encodings = Throw e /\ w3 = w2) \/
  (exists c,
     fst (fst (handle c (handler w2) (heap w2))) = Throw e /\
     since w2 w3 = [Call c false]) \/
  (exists v, fst (validateRtpParameters v) = Some e \/
             fst (validateSctpStreamParameters v) = Some e).
Proof.
  destruct w2 as [t2 h2 hp2 lg2].
  destruct t; simpl;
    unfold void, produce_task, produceData_task, consume_task, consumeData_task;
    methods_unfold;
    try (monad_simpl;
         destruct (handle _ h2 hp2) as [[[?|?] ?] ?] eqn:Hh; simpl;
         intros [= <- <-]; right; left;
         eexists; rewrite Hh; split; [done|by since_simpl]).
  - match goal with
    | |- context [normalizeEncodings ?x] =>
        destruct (normalizeEncodings x) as [ne|e'] eqn:He
    end; monad_simpl.
    2:{ intros [= <- <-]. left. eexists _, _, _, _. by rewrite He. }
    destruct (handle _ h2 hp2) as [[[sent|e'] h3] hp3] eqn:Hh; simpl.
    2:{ intros [= <- <-]. right; left. eexists.
        rewrite Hh. split; [done|by since_simpl]. }
    destruct (validateRtpParameters (hp3 !!! sr_rtpParameters sent))
      as [[e'|] v'] eqn:Hv; simpl; [|done].
    intros Hr. right; right. exists (hp3 !!! sr_rtpParameters sent). left.
    rewrite Hv. simpl.
    by destruct (handle _ h3 _) as [[[[]|e''] h4] hp4]; simpl in Hr;
      injection Hr as <- _.
  - monad_simpl.
    destruct (handle _ h2 hp2) as [[[sent|e'] h3] hp3] eqn:Hh; simpl.
    2:{ intros [= <- <-]. right; left. eexists.
        rewrite Hh. split; [done|by since_simpl]. }
    destruct (validateSctpStreamParameters
                (hp3 !!! sd_sctpStreamParameters sent))
      as [[e'|] v'] eqn:Hv; simpl; [|done].
    intros [= <- <-]. right; right.
    exists (hp3 !!! sd_sctpStreamParameters sent). right. by rewrite Hv.
  - monad_simpl.
    destruct (handle _ h2 hp2) as [[[results|e'] h3] hp3] eqn:Hh; simpl.
    2:{ intros [= <- <-]. right; left. eexists.
        rewrite Hh. split; [done|by since_simpl]. }
    destruct (negb (_probatorConsumerCreated t2) && String.eqb _ "video");
      simpl; [|done].
    destruct (generateProbatorRtpParameters _) as [[v|e'] v']; simpl; [|done].
    by destruct (handle _ h3 _) as [[[?|?] ?] ?].
Qed.



Section Adds.
Context (P : Event -> Prop).

Lemma adds_nothing {A} (m : M A) :
  (forall w, log (snd (m w)) = log w) -> adds P m.
Proof. intros Hm w. exists []. by rewrite app_nil_r. Qed.

Lemma adds_ret {A} (a : A) : adds P (ret a).
Proof. by apply adds_nothing. Qed.

Lemma adds_throw {A} e : adds P (@throw H A e).
Proof. by apply adds_nothing. Qed.

Lemma adds_lift {A} (r : Res A) : adds P (lift r).
Proof. by apply adds_nothing. Qed.

Lemma adds_read : adds P read.
Proof. by apply adds_nothing. Qed.

Lemma adds_update f : adds P (update f).
Proof. by apply adds_nothing. Qed.

Lemma adds_alloc v : adds P (alloc v).
Proof. by apply adds_nothing. Qed.

Lemma adds_on_object {A} (f : JsValue -> A * JsValue) l : adds P (on_object f l).
Proof.
  apply adds_nothing. intros w. unfold on_object.
  by destruct (f (heap w !!! l)).
Qed.

Lemma adds_record e : P e -> adds P (record e).
Proof. intros He w. exists [e]. split; [done|]. by constructor. Qed.

Lemma adds_call c : (forall b, P (Call c b)) -> adds P (call c).
Proof.
  intros Hc w. unfold call.
  destruct (handle c (handler w) (heap w)) as [[r h'] hp'].
  eexists. split; [done|]. constructor; [apply Hc|constructor].
Qed.

Lemma adds_bind {A B} (m : M A) (k : A -> M B) :
  adds P m -> (forall a, adds P (k a)) -> adds P (bind m k).
Proof.
  intros Hm Hk w. unfold bind. destruct (Hm w) as (evs & Hl & He).
  destruct (m w) as [[a|e] w1]; simpl in *; [|eauto].
  destruct (Hk a w1) as (evs' & Hl' & He').
  exists (evs ++ evs'). rewrite Hl', Hl, app_assoc. split; [done|].
  by apply Forall_app.
Qed.

Lemma adds_try_catch {A} (m : M A) (h : Error -> M A) :
  adds P m -> (forall e, adds P (h e)) -> adds P (try_catch m h).
Proof.
  intros Hm Hk w. unfold try_catch. destruct (Hm w) as (evs & Hl & He).
  destruct (m w) as [[a|e] w1]; simpl in *; [eauto|].
  destruct (Hk e w1) as (evs' & Hl' & He').
  exists (evs ++ evs'). rewrite Hl', Hl, app_assoc. split; [done|].
  by apply Forall_app.
Qed.

End Adds.

Ltac adds_step :=
  first
    [ apply adds_ret | apply adds_throw | apply adds_lift | apply adds_read
    | apply adds_update | apply adds_alloc | apply adds_on_object
    | match goal with
      | |- adds _ (call ?c) => apply (adds_call _ c); intros ?; done
      end
    | apply adds_record; done
    | apply adds_bind; [|intros ?]
    | apply adds_try_catch; [|intros ?]
    | match goal with
      | |- adds _ (if ?b then _ else _) => destruct b
      | |- adds _ (match ?x with _ => _ end) => destruct x
      end ].

Lemma run_task_calls_only (t : Task) :
  adds (fun e => is_adapter_call e = true) (run_task t).
Proof.
  destruct t; simpl;
    unfold void, produce_task, produceData_task, consume_task, consumeData_task;
    methods_unfold; cbv zeta; repeat adds_step.
Qed.

(** C8, as amended.  A failure found by the checks of [produce()] is thrown
    with the world untouched.  Once [produce()] has submitted its
    command, the promise it returned settles as the command ends: when
    the command succeeds the promise resolves with its result and the
    track is left alone; when the command fails, or the queue rejects
    it, the promise rejects with that same failure and, when
    [stopTracks] holds, the track is stopped, as the last thing
    recorded, after the adapter calls of the command.  The command
    does fail when the queue is stopped, when the encodings are
    malformed, when the adapter's [send] fails and when the parameters
    [send] returned do not validate. *)
Theorem produce_failure_after_submission_stops_track
    (o : ProducerOptions) (w : World H) :
  (forall e w1, produce o w = (Throw e, w1) -> w1 = w) /\
  (forall p w1, produce o w = (Ok p, w1) ->
   exists tr,
     let st := or_default (stopTracks o) (JsBool true) in
     let send ne := HSend {| so_track := tr; so_encodings := ne;
                             so_codecOptions := codecOptions o;
                             so_codec := codec o |} in
     track o = Some tr /\
     p = {| p_task := TProduce tr (encodings o) (codecOptions o) (codec o);
            p_catch := StopTrackCatch st tr |} /\
     (forall (f : Fate) (w2 : World H),
        match queue_promise f (p_task p) w2 with
        | (Ok v, wq) => settle p f w2 = (Ok v, wq)
        | (Throw e, wq) =>
            settle p f w2 =
              (Throw e,
               {| this := this wq; handler := handler wq; heap := heap wq;
                  log := log wq ++
                         (if truthy st then [Track_stop tr] else []) |}) /\
            exists calls,
              Forall (fun ev => is_adapter_call ev = true) calls /\
              log wq = log w2 ++ calls
        end) /\
     (forall w2 : World H,
        queue_promise Stopped (p_task p) w2 = (Throw AwaitQueueStoppedError, w2)) /\
     (forall (w2 : World H) e,
        normalizeEncodings (encodings o) = Throw e ->
        queue_promise Executed (p_task p) w2 = (Throw e, w2)) /\
     (forall (w2 : World H) ne,
        normalizeEncodings (encodings o) = Ok ne ->
        match handle (send ne) (handler w2) (heap w2) with
        | (Throw e, _, _) =>
            fst (queue_promise Executed (p_task p) w2) = Throw e
        | (Ok sent, _, hp) =>
            forall e,
              fst (validateRtpParameters (hp !!! sr_rtpParameters sent)) =
                Some e ->
              fst (queue_promise Executed (p_task p) w2) = Throw e
        end)).
Proof.
  destruct w as [t h hp lg]. unfold produce. monad_simpl.
  destruct (_closed t); simpl; [split; intros; by simplify_eq|].
  destruct (track o) as [tr|] eqn:Ht; [|split; intros; by simplify_eq].
  case_bool_decide; simpl; [|split; intros; by simplify_eq].
  destruct (negb _); [split; intros; by simplify_eq|].
  destruct (String.eqb _ _); [split; intros; by simplify_eq|].
  split; [intros; by simplify_eq|]. intros p w1 [= <- <-].
  exists tr. split; [done|]. split; [done|]. simpl.
  split; [|split; [done|split]].
  - intros f w2. unfold settle, try_catch. simpl.
    assert (Hq : exists calls, log (snd (queue_promise f
                   (TProduce tr (encodings o) (codecOptions o) (codec o)) w2))
                   = log w2 ++ calls /\
                 Forall (fun ev => is_adapter_call ev = true) calls).
    { destruct f; [apply run_task_calls_only|].
      exists []. by rewrite app_nil_r. }
    destruct Hq as (calls & Hl & Hc).
    destruct (queue_promise f _ w2) as [[v|e'] wq]; [done|]. simpl in Hl.
    unfold produce_catch. monad_simpl.
    split; [|by exists calls].
    destruct (truthy _); simpl; [done|].
    destruct wq as [tq hq hpq lgq]. simpl. by rewrite app_nil_r.
  - intros w2 e He. unfold produce_task. rewrite He. by monad_simpl.
  - intros [t2 h2 hp2 lg2] ne He. simpl.
    unfold produce_task. rewrite He. methods_unfold. monad_simpl.
    destruct (handle _ h2 hp2) as [[[sent|e] h3] hp3]; simpl; [|done].
    intros e Hv.
    destruct (validateRtpParameters _) as [[e'|] v']; simpl in *; [|done].
    injection Hv as ->.
    by destruct (handle _ h3 _) as [[[[]|e''] h4] hp4].
Qed.


(** C9, as amended.  The command [produceData()] submits, and the call to
    the adapter that command makes, carry [ordered] false when
    [maxPacketLifeTime] or [maxRetransmits] is truthy, and otherwise
    the caller's [ordered], true by default. *)
Theorem produceData_ordered_unless_truthy_limit
    (o : DataProducerOptions) (w w1 : World H) (p : Promise) :
  produceData o w = (Ok p, w1) ->
  let ord :=
    if truthy (dp_maxPacketLifeTime o) || truthy (dp_maxRetransmits o)
    then JsBool false else or_default (dp_ordered o) (JsBool true) in
  let label := or_default (dp_label o) (JsString "") in
  let protocol := or_default (dp_protocol o) (JsString "") in
  p_task p = TProduceData ord (dp_maxPacketLifeTime o) (dp_maxRetransmits o)
                          label protocol /\
  forall w2 : World H, exists b,
    since w2 (snd (run_task (p_task p) w2)) =
      [Call (HSendDataChannel
               {| ordered := ord;
                  maxPacketLifeTime := dp_maxPacketLifeTime o;
                  maxRetransmits := dp_maxRetransmits o;
                  sd_label := label; sd_protocol := protocol |}) b].
Proof.
  destruct w as [t h hp lg]. unfold produceData. monad_simpl.
  destruct (_closed t); simpl; [done|].
  case_bool_decide; simpl; [|done].
  destruct (truthy (_maxSctpMessageSize t)); simpl; [|done].
  intros [= <- <-]. simpl. split; [done|].
  intros [t2 h2 hp2 lg2]. unfold produceData_task.
  methods_unfold. monad_simpl.
  destruct (handle _ h2 hp2) as [[r h'] hp']; simpl.
  destruct r as [r|e]; simpl; [|eexists; by since_simpl].
  destruct (validateSctpStreamParameters _) as [[e|] v']; simpl;
    eexists; by since_simpl.
Qed.

Lemma filter_bool_cons (p : Event -> bool) e evs :
  filter p (e :: evs) = if p e then e :: filter p evs else filter p evs.
Proof.
  rewrite filter_cons. destruct (p e) eqn:E; case_decide; done.
Qed.

Ltac probe_simpl Hid :=
  since_simpl; rewrite ?filter_bool_cons, ?filter_nil; simpl;
  rewrite ?Hid, ?orb_false_r, ?orb_true_r; simpl.

Lemma consume_task_probes
    (w : World H) (id kind : string) (l : loc) (sid : JsValue) :
  id <> "probator" ->
  let main :=
    HReceive [{| trackId := id; ro_kind := kind;
                 ro_rtpParameters := l; ro_streamId := sid |}] in
  let answer := handle main (handler w) (heap w) in
  let r := fst (run_task (TConsume id kind l sid) w) in
  let w' := snd (run_task (TConsume id kind l sid) w) in
  let probes := filter is_probe_request (since w w') in
  (r = match fst (fst answer) with
       | Ok results => Ok (VReceive (default JsUndefined (head results)))
       | Throw e => Throw e
       end /\
   (length probes <= 1)%nat /\
   (_probatorConsumerCreated (this w) = false -> kind = "video" ->
    (exists results, fst (fst answer) = Ok results) ->
    (exists v, fst (generateProbatorRtpParameters (snd answer !!! l)) = Ok v) ->
    exists lp b,
      since w w' = [Call main true; Call (HReceive [probator_options lp]) b]) /\
   (_probatorConsumerCreated (this w) = true \/ kind <> "video" \/
    (exists e, fst (fst answer) = Throw e) -> probes = []) /\
   _probatorConsumerCreated (this w') =
     _probatorConsumerCreated (this w) || existsb is_probe_confirmed (since w w')) /\
  length (filter is_probe_confirmed (since w w')) =
    (if _probatorConsumerCreated (this w) then 0
     else if _probatorConsumerCreated (this w') then 1 else 0)%nat.
Proof.
  intros Hid. apply String.eqb_neq in Hid.
  destruct w as [t h hp lg]. simpl.
  unfold consume_task. methods_unfold. monad_simpl.
  destruct (handle _ h hp) as [[r1 h1] hp1]; simpl.
  destruct r1 as [results|e]; simpl.
  2:{ probe_simpl Hid. destruct (_probatorConsumerCreated t);
        repeat split; try done; try lia.
      all: intros _ _ [? [=]]. }
  destruct (_probatorConsumerCreated t) eqn:Hm; simpl.
  { probe_simpl Hid. repeat split; try done; lia. }
  destruct (String.eqb kind "video") eqn:Hk; simpl.
  2:{ probe_simpl Hid. rewrite Hm. repeat split; try done; try lia.
      intros _ ->. done. }
  apply String.eqb_eq in Hk. subst kind.
  destruct (generateProbatorRtpParameters (hp1 !!! l)) as [[v|e] v'] eqn:Hg; simpl.
  2:{ probe_simpl Hid. rewrite Hm. repeat split; try done; try lia.
      intros _ _ _ [? [=]]. }
  destruct (handle _ h1 _) as [[r2 h2] hp2]; simpl.
  destruct r2 as [results2|e2]; simpl; probe_simpl Hid; rewrite ?Hm;
    (repeat split; try done; try lia;
     [ intros; eauto | intros [[=]|[[]|[? [=]]]]; done ]).
Qed.

Lemma run_task_log (t : Task) (w : World H) :
  log (snd (run_task t w)) = log w ++ since w (snd (run_task t w)).
Proof.
  destruct (run_task_calls_only t w) as (evs & Hl & _).
  by rewrite (since_app _ _ _ Hl).
Qed.

Lemma run_tasks_cons (t : Task) (ts : list Task) (w : World H) :
  run_tasks (t :: ts) w = run_tasks ts (snd (run_task t w)).
Proof. reflexivity. Qed.

Lemma consume_tasks_probes (ts : list Task) (w : World H) :
  Forall ordinary_consume ts ->
  let w' := run_tasks ts w in
  log w' = log w ++ since w w' /\
  length (filter is_probe_confirmed (since w w')) =
    (if _probatorConsumerCreated (this w) then 0
     else if _probatorConsumerCreated (this w') then 1 else 0)%nat /\
  (_probatorConsumerCreated (this w) = true ->
   _probatorConsumerCreated (this w') = true /\
   filter is_probe_request (since w w') = []).
Proof.
  intros Hts. revert w. induction Hts as [|t ts Ht _ IH]; intros w; cbv zeta.
  - change (run_tasks [] w) with w.
    rewrite since_refl, app_nil_r. by destruct (_probatorConsumerCreated _).
  - rewrite run_tasks_cons.
    destruct t; try done. simpl in Ht.
    destruct (consume_task_probes w id kind rtpParameters streamId Ht)
      as [(_ & _ & _ & Hnone & Hmark) Hcount].
    pose proof (run_task_log (TConsume id kind rtpParameters streamId) w) as Hl.
    cbv zeta in Hnone, Hmark, Hcount.
    set (w1 := snd (run_task (TConsume id kind rtpParameters streamId) w)) in *.
    destruct (IH w1) as (Hl' & Hcount' & Hset').
    assert (E : log (run_tasks ts w1) =
                log w ++ since w w1 ++ since w1 (run_tasks ts w1)).
    { rewrite Hl' at 1. rewrite Hl at 1. by rewrite <- app_assoc. }
    rewrite (since_app _ _ _ E). split; [exact E|].
    rewrite !filter_app, length_app, Hcount, Hcount'.
    destruct (_probatorConsumerCreated (this w)) eqn:Hm.
    + assert (Hm1 : _probatorConsumerCreated (this w1) = true)
        by (by rewrite Hmark).
      rewrite Hm1. split; [done|]. intros _.
      destruct (Hset' Hm1) as [-> ->]. split; [done|].
      rewrite Hnone by (by left). done.
    + split; [|done].
      destruct (_probatorConsumerCreated (this w1)) eqn:Hm1.
      * by destruct (Hset' eq_refl) as [-> _].
      * by destruct (_probatorConsumerCreated (this (run_tasks ts w1))).
Qed.

(** C2, as amended.  For a consume command under an identifier other than
    the reserved one: its outcome is that of the adapter's receive for
    its own stream, whatever happens to the probe; it asks the adapter
    for at most one probe stream; it asks for exactly one, under the
    reserved identifier and right after its own receive, when the
    marker is unset, the kind is video, its own receive succeeded and
    the probe parameters could be derived; it asks for none when the
    marker is set, the kind is not video or its own receive failed; and
    the marker afterwards is set exactly when it was set before or the
    adapter confirmed a probe stream.  Over this command and any such
    commands run after it, the adapter confirms at most one probe
    stream, and exactly one when the marker ends up set having been
    unset; once the marker is set it stays set and the commands that
    follow ask for no probe stream. *)
Theorem probator_requested_once_own_receive_succeeds
    (w : World H) (id kind : string) (l : loc) (sid : JsValue)
    (ts : list Task) :
  id <> "probator" -> Forall ordinary_consume ts ->
  let main :=
    HReceive [{| trackId := id; ro_kind := kind;
                 ro_rtpParameters := l; ro_streamId := sid |}] in
  let answer := handle main (handler w) (heap w) in
  let r := fst (run_task (TConsume id kind l sid) w) in
  let w' := snd (run_task (TConsume id kind l sid) w) in
  let w'' := run_tasks ts w' in
  let probes := filter is_probe_request (since w w') in
  r = match fst (fst answer) with
      | Ok results => Ok (VReceive (default JsUndefined (head results)))
      | Throw e => Throw e
      end /\
  (length probes <= 1)%nat /\
  (_probatorConsumerCreated (this w) = false -> kind = "video" ->
   (exists results, fst (fst answer) = Ok results) ->
   (exists v, fst (generateProbatorRtpParameters (snd answer !!! l)) = Ok v) ->
   exists lp b,
     since w w' = [Call main true; Call (HReceive [probator_options lp]) b]) /\
  (_probatorConsumerCreated (this w) = true \/ kind <> "video" \/
   (exists e, fst (fst answer) = Throw e) -> probes = []) /\
  _probatorConsumerCreated (this w') =
    _probatorConsumerCreated (this w) || existsb is_probe_confirmed (since w w') /\
  length (filter is_probe_confirmed (since w w'')) =
    (if _probatorConsumerCreated (this w) then 0
     else if _probatorConsumerCreated (this w'') then 1 else 0)%nat /\
  (_probatorConsumerCreated (this w') = true ->
   _probatorConsumerCreated (this w'') = true /\
   filter is_probe_request (since w' w'') = []).
Proof.
  intros Hid Hts.
  destruct (consume_task_probes w id kind l sid Hid) as [Hone _].
  destruct Hone as (Hr & Hle & Hask & Hnone & Hmark).
  repeat (split; [assumption|]).
  destruct (consume_tasks_probes (TConsume id kind l sid :: ts) w) as (_ & Hc & _).
  { by constructor. }
  split; [exact Hc|].
  by destruct (consume_tasks_probes ts
                 (snd (run_task (TConsume id kind l sid) w)) Hts) as (_ & _ & Hs).
Qed.


Section Keeps.
Context (l : loc).

Lemma keeps_heap_same {A} (m : M A) (Q : A -> Prop) :
  (forall w, heap (snd (m w)) = heap w) ->
  (forall w a, fst (m w) = Ok a -> Q a) -> keeps l m Q.
Proof. intros Hm HQ w _. rewrite Hm. eauto. Qed.

Lemma keeps_weaken {A} (m : M A) (Q R : A -> Prop) :
  keeps l m Q -> (forall a, Q a -> R a) -> keeps l m R.
Proof. intros Hm HQ w Hw. destruct (Hm w Hw). eauto. Qed.

Lemma keeps_ret {A} (a : A) (Q : A -> Prop) : Q a -> keeps l (ret a) Q.
Proof. intros Ha. apply keeps_heap_same; [done|]. by intros w a' [= <-]. Qed.

Lemma keeps_throw {A} e (Q : A -> Prop) : keeps l (@throw H A e) Q.
Proof. by apply keeps_heap_same. Qed.

Lemma keeps_read : keeps l read (fun _ => True).
Proof. by apply keeps_heap_same. Qed.

Lemma keeps_update f : keeps l (update f) (fun _ => True).
Proof. by apply keeps_heap_same. Qed.

Lemma keeps_record e : keeps l (record e) (fun _ => True).
Proof. by apply keeps_heap_same. Qed.

Lemma keeps_alloc v : keeps l (alloc v) (fun l' => l' <> l).
Proof.
  intros w Hw. unfold alloc. simpl.
  assert (fresh (dom (heap w)) <> l).
  { intros E. apply (is_fresh (dom (heap w))). rewrite E. by apply elem_of_dom. }
  split; [by rewrite lookup_insert_ne|]. by intros a [= <-].
Qed.

Lemma keeps_clone l0 : keeps l (clone l0) (fun l' => l' <> l).
Proof. intros w. apply keeps_alloc. Qed.

Lemma keeps_on_object {A} (f : JsValue -> A * JsValue) l' :
  l' <> l -> keeps l (on_object f l') (fun _ => True).
Proof.
  intros Hne w _. unfold on_object. destruct (f (heap w !!! l')) as [a v'].
  simpl. split; [by rewrite lookup_insert_ne|done].
Qed.

Lemma keeps_call c :
  handler_keeps l -> l ∉ call_refs c -> keeps l (call c) (fun _ => True).
Proof.
  intros Hh Hc w _. unfold call. specialize (Hh c (handler w) (heap w) Hc).
  destruct (handle c (handler w) (heap w)) as [[r h'] hp']. simpl in *. done.
Qed.

Lemma keeps_bind {A B} (m : M A) (k : A -> M B) (Q : A -> Prop) (R : B -> Prop) :
  keeps l m Q -> (forall a, Q a -> keeps l (k a) R) -> keeps l (bind m k) R.
Proof.
  intros Hm Hk w Hw. unfold bind. destruct (Hm w Hw) as [Hh HQ].
  destruct (m w) as [[a|e] w1]; simpl in *; [|done].
  destruct (Hk a (HQ a eq_refl) w1) as [Hh1 HR]; [by rewrite Hh|].
  split; [by rewrite Hh1|done].
Qed.

Lemma keeps_try_catch {A} (m : M A) (h : Error -> M A) (R : A -> Prop) :
  keeps l m R -> (forall e, keeps l (h e) R) -> keeps l (try_catch m h) R.
Proof.
  intros Hm Hk w Hw. unfold try_catch. destruct (Hm w Hw) as [Hh HQ].
  destruct (m w) as [[a|e] w1]; simpl in *; [by split|].
  destruct (Hk e w1) as [Hh1 HR]; [by rewrite Hh|].
  split; [by rewrite Hh1|done].
Qed.

End Keeps.

Lemma keeps_canReceive l l' caps :
  l' <> l -> keeps l (ortc_canReceive l' caps) (fun _ => True).
Proof. intros. by apply keeps_on_object. Qed.

Lemma keeps_validateSctpStreamParameters l l' :
  l' <> l -> keeps l (ortc_validateSctpStreamParameters l') (fun _ => True).
Proof.
  intros. eapply keeps_bind; [by apply keeps_on_object|].
  intros [e|] _; [apply keeps_throw|by apply keeps_ret].
Qed.

Lemma keeps_generateProbatorRtpParameters l l' :
  l' <> l -> keeps l (ortc_generateProbatorRtpParameters l') (fun lp => lp <> l).
Proof.
  intros. eapply keeps_bind; [by apply keeps_on_object|].
  intros [v|e] _; [apply keeps_alloc|apply keeps_throw].
Qed.

Ltac keeps_step :=
  first
    [ apply keeps_ret; try exact I | apply keeps_throw
    | apply keeps_alloc
    | eapply keeps_bind; [apply keeps_read|intros ? ?]
    | eapply keeps_bind; [apply keeps_update|intros ? ?]
    | eapply keeps_bind; [apply keeps_record|intros ? ?]
    | eapply keeps_bind; [apply keeps_clone|intros ? ?]
    | eapply keeps_bind; [apply keeps_alloc|intros ? ?]
    | eapply keeps_bind; [by apply keeps_canReceive|intros ? ?]
    | eapply keeps_bind; [by apply keeps_validateSctpStreamParameters|intros ? ?]
    | eapply keeps_bind; [by apply keeps_generateProbatorRtpParameters|intros ? ?]
    | eapply keeps_weaken; [apply keeps_update|done]
    | match goal with
      | |- keeps _ (bind (call ?c) _) _ =>
          eapply keeps_bind;
          [apply (keeps_call _ c);
           [assumption
           |simpl; rewrite ?not_elem_of_cons; repeat split;
            try apply not_elem_of_nil; congruence]
          |intros ? ?]
      | |- keeps _ (bind (match (if ?b then _ else _) with _ => _ end) _) _ =>
          destruct b
      | |- keeps _ (bind (match ?x with _ => _ end) _) _ => destruct x
      | |- keeps ?l (bind (try_catch _ _) _) _ =>
          apply (keeps_bind l _ _ (fun _ => True));
          [apply keeps_try_catch; [|intros ?]|intros ? ?]
      | |- keeps _ (if ?b then _ else _) _ => destruct b
      | |- keeps _ (match ?x with _ => _ end) _ => destruct x
      | |- keeps _ (try_catch _ _) _ => apply keeps_try_catch; [|intros ?]
      end ].

Lemma consume_keeps l o :
  keeps l (consume o) (works_on_copy l).
Proof.
  unfold consume, enqueue, push. cbv zeta.
  repeat keeps_step. unfold works_on_copy. simpl. split; [done|]. left. by eauto 10.
Qed.

Lemma consumeData_keeps l o :
  keeps l (consumeData o) (works_on_copy l).
Proof.
  unfold consumeData, enqueue, push. cbv zeta.
  repeat keeps_step. unfold works_on_copy. simpl. split; [done|]. right. by eauto 10.
Qed.

Lemma settle_keeps l p f :
  handler_keeps l -> works_on_copy l p ->
  keeps l (settle p f) (fun _ => True).
Proof.
  intros Hh [Hc Hp]. destruct p as [t c]. simpl in *. subst c.
  unfold settle, queue_promise, on_rejected. simpl.
  apply keeps_try_catch; [|intros ?; apply keeps_throw].
  destruct f; [|apply keeps_throw].
  destruct Hp as [(id & kind & l' & sid & -> & Hne)|(l' & lb & pr & -> & Hne)];
    simpl; unfold consume_task, consumeData_task; cbv zeta.
  - repeat keeps_step.
  - repeat keeps_step.
Qed.

(** C10.  Let [l] refer to an object, the caller's parameters in
    particular, that the adapter does not touch unless it is handed a
    reference to it.  Then [consume()] and [consumeData()] leave the
    object as it is, whether they throw or return, and so does the
    settling of the promise they return, whenever and however the
    queue disposes of the command. *)
Theorem consume_and_consumeData_keep_caller_object (l : loc) (w : World H) :
  handler_keeps l -> is_Some (heap w !! l) ->
  (forall o,
     heap (snd (consume o w)) !! l = heap w !! l /\
     forall p, fst (consume o w) = Ok p ->
       forall (f : Fate) (w2 : World H), is_Some (heap w2 !! l) ->
         heap (snd (settle p f w2)) !! l = heap w2 !! l) /\
  (forall o,
     heap (snd (consumeData o w)) !! l = heap w !! l /\
     forall p, fst (consumeData o w) = Ok p ->
       forall (f : Fate) (w2 : World H), is_Some (heap w2 !! l) ->
         heap (snd (settle p f w2)) !! l = heap w2 !! l).
Proof.
  intros Hh Hw. split; intros o.
  - destruct (consume_keeps l o w Hw) as [Hk Hp]. split; [done|].
    intros p Ep f w2 Hw2. by apply (settle_keeps l p f Hh (Hp p Ep) w2 Hw2).
  - destruct (consumeData_keeps l o w Hw) as [Hk Hp]. split; [done|].
    intros p Ep f w2 Hw2. by apply (settle_keeps l p f Hh (Hp p Ep) w2 Hw2).
Qed.

(** ** Further properties of the methods *)

(** The command of [produce]: malformed encodings fail it before the
    adapter is invoked; a failure of [send] is its failure; when the
    parameters [send] returned do not validate, [stopSending] is called
    once, with the [localId] that [send] returned, and the failure is
    that of the validation whatever [stopSending] does; otherwise the
    result of [send] is returned, with the parameters as validation
    left them. *)
Theorem produce_task_unwinds_after_invalid_parameters
    (w : World H) (track : MediaStreamTrack)
    (encodings codecOptions codec : JsValue) :
  let r := fst (run_task (TProduce track encodings codecOptions codec) w) in
  let w' := snd (run_task (TProduce track encodings codecOptions codec) w) in
  match normalizeEncodings encodings with
  | Throw e => r = Throw e /\ w' = w
  | Ok normalizedEncodings =>
      let send := HSend {| so_track := track;
                           so_encodings := normalizedEncodings;
                           so_codecOptions := codecOptions;
                           so_codec := codec |} in
      match handle send (handler w) (heap w) with
      | (Throw e, _, _) => r = Throw e /\ since w w' = [Call send false]
      | (Ok sent, _, hp) =>
          let validated :=
            validateRtpParameters (hp !!! sr_rtpParameters sent) in
          match fst validated with
          | None =>
              r = Ok (VSend sent) /\ since w w' = [Call send true] /\
              heap w' !! sr_rtpParameters sent = Some (snd validated)
          | Some e =>
              r = Throw e /\
              exists b, since w w' =
                          [Call send true; Call (HStopSending (localId sent)) b]
          end
      end
  end.
Proof.
  destruct w as [t h hp lg]. simpl. unfold produce_task.
  destruct (normalizeEncodings encodings) as [ne|e]; [|by monad_simpl].
  methods_unfold. monad_simpl.
  destruct (handle _ h hp) as [[[sent|e] h1] hp1]; simpl;
    [|by since_simpl].
  destruct (validateRtpParameters _) as [[e|] v']; simpl.
  - destruct (handle _ h1 _) as [[[[]|e'] h2] hp2]; simpl;
      since_simpl; eauto.
  - since_simpl. by rewrite lookup_insert_eq.
Qed.

(** [produce()] submits its command exactly when the transport is open
    and a sending one, a track is given, the table of producible kinds
    marks its kind true, or has no entry for it while the kind is a
    name every object inherits, and the track has not ended; and it
    fails with the closed failure exactly when the transport is closed. *)
Theorem produce_submits_iff (o : ProducerOptions) (w : World H) :
  ((exists p, fst (produce o w) = Ok p) <->
   _closed (this w) = false /\ _direction (this w) = send /\
   exists tr, track o = Some tr /\
              (_canProduceByKind (this w) !! track_kind tr = Some true \/
               (_canProduceByKind (this w) !! track_kind tr = None /\
                track_kind tr ∈ Object_prototype_names)) /\
              readyState tr <> "ended") /\
  (forall e, fst (produce o w) = Throw e ->
             (failure_class e = Some Closed <-> _closed (this w) = true)).
Proof.
  destruct w as [t h hp lg]. unfold produce. monad_simpl.
  destruct (_closed t); simpl.
  { split; [split; [by intros [? ?]|by intros [? _]]|]. by intros e [= <-]. }
  destruct (track o) as [tr|]; simpl.
  2:{ split; [split; [by intros [? ?]|by intros (_ & _ & ? & ? & _)]|].
      by intros e [= <-]. }
  case_bool_decide as Hd; simpl.
  2:{ split; [split; [by intros [? ?]|by intros (_ & ? & _)]|].
      by intros e [= <-]. }
  assert (Hk : truthy_at (_canProduceByKind t) (track_kind tr) = true <->
               (_canProduceByKind t !! track_kind tr = Some true \/
                (_canProduceByKind t !! track_kind tr = None /\
                 track_kind tr ∈ Object_prototype_names))).
  { unfold truthy_at.
    destruct (_canProduceByKind t !! track_kind tr) as [[]|]; simpl.
    - split; [by left|done].
    - split; [done|]. by intros [?|[? _]].
    - rewrite bool_decide_eq_true. split; [by right|]. by intros [?|[_ ?]]. }
  destruct (truthy_at (_canProduceByKind t) (track_kind tr)); simpl.
  2:{ split; [split; [by intros [? ?]|]|by intros e [= <-]].
      intros (_ & _ & tr' & [= <-] & Hy & _). by apply Hk in Hy. }
  destruct (String.eqb_spec (readyState tr) "ended") as [He|He]; simpl.
  - split; [split; [by intros [? ?]|]|by intros e [= <-]].
    intros (_ & _ & tr' & [= <-] & _ & ?). done.
  - split; [|done]. split; [|by eauto]. intros _.
    split; [done|]. split; [done|]. exists tr. split; [done|].
    split; [by apply Hk|done].
Qed.

(** On a transport built without SCTP parameters, or with a maximum
    message size that is absent or 0, [produceData()] and
    [consumeData()] always fail, with the closed or the unsupported
    failure, and submit nothing. *)
Theorem no_sctp_no_data_channels
    (w : World H) (d : Direction) (sctpParameters caps : JsValue)
    (canProduce : gmap string bool) :
  _maxSctpMessageSize (this w) =
    _maxSctpMessageSize (new_Transport d sctpParameters caps canProduce) ->
  truthy sctpParameters && truthy (prop sctpParameters "maxMessageSize") = false ->
  (forall o, exists e,
     produceData o w = (Throw e, w) /\
     (failure_class e = Some Closed \/ failure_class e = Some Unsupported)) /\
  (forall o, exists e,
     fst (consumeData o w) = Throw e /\
     (failure_class e = Some Closed \/ failure_class e = Some Unsupported) /\
     since w (snd (consumeData o w)) = [] /\
     this (snd (consumeData o w)) = this w).
Proof.
  intros Hm Hs.
  assert (Hf : truthy (_maxSctpMessageSize (this w)) = false).
  { rewrite Hm. simpl. unfold prop in Hs.
    destruct (truthy sctpParameters); [|done]. simpl in Hs.
    by destruct (get sctpParameters "maxMessageSize"). }
  clear Hm Hs. destruct w as [t h hp lg]. simpl in Hf.
  split; intros o.
  - unfold produceData. monad_simpl.
    destruct (_closed t); simpl; [by eauto|].
    case_bool_decide; simpl; [|by eauto]. rewrite Hf. simpl. eauto.
  - unfold consumeData. monad_simpl.
    destruct (_closed t); simpl; [since_simpl; by eauto 10|].
    case_bool_decide; simpl; [|since_simpl; by eauto 10].
    rewrite Hf. simpl. since_simpl. eauto 10.
Qed.

(** [consumeData()] submits its command exactly when the transport is
    open, a receiving one and has a maximum message size, [id] and
    [dataProducerId] are strings and the stream parameters validate;
    when all but the last hold, the failure of the validation is thrown
    by [consumeData()] itself, with nothing submitted and the adapter
    not invoked. *)
Theorem consumeData_submits_iff (o : DataConsumerOptions) (w : World H) :
  let verdict :=
    fst (validateSctpStreamParameters (heap w !!! dc_sctpStreamParameters o)) in
  let ready :=
    _closed (this w) = false /\ _direction (this w) = recv /\
    truthy (_maxSctpMessageSize (this w)) = true /\
    is_string (dc_id o) = true /\ is_string (dc_dataProducerId o) = true in
  ((exists p, fst (consumeData o w) = Ok p) <-> ready /\ verdict = None) /\
  (ready -> forall e, verdict = Some e ->
   fst (consumeData o w) = Throw e /\
   since w (snd (consumeData o w)) = [] /\
   this (snd (consumeData o w)) = this w /\
   handler (snd (consumeData o w)) = handler w).
Proof.
  destruct w as [t h hp lg]. simpl.
  unfold consumeData, ortc_validateSctpStreamParameters. monad_simpl.
  destruct (_closed t); simpl.
  { split; [split; [by intros [? ?]|by intros [[? _] _]]|by intros [? _]]. }
  case_bool_decide as Hd; simpl.
  2:{ split; [split; [by intros [? ?]|by intros [(_ & ? & _) _]]|].
      by intros (_ & ? & _). }
  destruct (truthy (_maxSctpMessageSize t)); simpl.
  2:{ split; [split; [by intros [? ?]|by intros [(_ & _ & ? & _) _]]|].
      by intros (_ & _ & ? & _). }
  destruct (is_string (dc_id o)); simpl.
  2:{ split; [split; [by intros [? ?]|by intros [(_ & _ & _ & ? & _) _]]|].
      by intros (_ & _ & _ & ? & _). }
  destruct (is_string (dc_dataProducerId o)); simpl.
  2:{ split; [split; [by intros [? ?]|by intros [(_ & _ & _ & _ & ?) _]]|].
      by intros (_ & _ & _ & _ & ?). }
  rewrite lookup_total_insert_eq.
  destruct (validateSctpStreamParameters _) as [[e|] v']; simpl.
  - split; [split; [by intros [? ?]|by intros [_ ?]]|].
    intros _ e' [= <-]. by since_simpl.
  - split; [|by intros _ e [=]]. split; [|by eauto]. by intros _.
Qed.

Lemma close_flag_set (w : World H) :
  _closed (this (snd (close w))) = true /\
  _iceGatheringState (this (snd (close w))) = _iceGatheringState (this w) /\
  _probatorConsumerCreated (this (snd (close w))) =
    _probatorConsumerCreated (this w) /\
  same_config (this w) (this (snd (close w))).
Proof.
  destruct w as [t h hp lg]. unfold close. monad_simpl.
  destruct (_closed t) eqn:Hc; simpl; [by rewrite Hc|].
  destruct (handle HClose h hp) as [[[[]|e] h'] hp']; simpl; by repeat split.
Qed.

(** Once [close()] has been called, however it ended and whatever the
    adapter raised since, a connect request of the adapter is denied
    with the closed failure; on an open transport it is approved.
    Neither changes the transport. *)
Theorem connect_denied_once_closed
    (w : World H) (l : list Stimulus) (dtlsParameters : JsValue) :
  (let w1 := react_all l (snd (close w)) in
   let w2 := snd (on_connect dtlsParameters w1) in
   since w1 w2 = [Connect_errback (InvalidStateError "closed")] /\
   this w2 = this w1) /\
  (_closed (this w) = false ->
   since w (snd (on_connect dtlsParameters w)) = [Connect_callback] /\
   this (snd (on_connect dtlsParameters w)) = this w).
Proof.
  split.
  - assert (Hc : _closed (this (snd (close w))) = true).
    { destruct (close_flag_set w) as [Hc _]. exact Hc. }
    assert (Hl : forall l w0, _closed (this w0) = true ->
                              _closed (this (react_all l w0)) = true).
    { clear. induction l as [|s l IH]; intros w0 Hw0; simpl; [done|].
      apply IH. by destruct (react_closed w0 s Hw0). }
    specialize (Hl l _ Hc). simpl.
    destruct (react_all l (snd (close w))) as [t h hp lg]. simpl in Hl.
    unfold on_connect. monad_simpl. rewrite Hl. simpl. by since_simpl.
  - destruct w as [t h hp lg]. simpl. intros Hc.
    unfold on_connect. monad_simpl. rewrite Hc. simpl. by since_simpl.
Qed.

Section Moves.
Context (R : Transport -> Transport -> Prop).
Context (R_refl : forall t, R t t).
Context (R_trans : forall t1 t2 t3, R t1 t2 -> R t2 t3 -> R t1 t3).

Lemma moves_still {A} (m : M A) :
  (forall w, this (snd (m w)) = this w) -> moves R m.
Proof. intros Hm w. rewrite Hm. apply R_refl. Qed.

Lemma moves_ret {A} (a : A) : moves R (ret a).
Proof. by apply moves_still. Qed.

Lemma moves_throw {A} e : moves R (@throw H A e).
Proof. by apply moves_still. Qed.

Lemma moves_lift {A} (r : Res A) : moves R (lift r).
Proof. by apply moves_still. Qed.

Lemma moves_read : moves R read.
Proof. by apply moves_still. Qed.

Lemma moves_record e : moves R (record e).
Proof. by apply moves_still. Qed.

Lemma moves_alloc v : moves R (alloc v).
Proof. by apply moves_still. Qed.

Lemma moves_on_object {A} (f : JsValue -> A * JsValue) l : moves R (on_object f l).
Proof.
  apply moves_still. intros w. unfold on_object.
  by destruct (f (heap w !!! l)).
Qed.

Lemma moves_call c : moves R (call c).
Proof.
  apply moves_still. intros w. unfold call.
  by destruct (handle c (handler w) (heap w)) as [[r h'] hp'].
Qed.

Lemma moves_update f : (forall t, R t (f t)) -> moves R (update f).
Proof. intros Hf w. apply Hf. Qed.

Lemma moves_bind {A B} (m : M A) (k : A -> M B) :
  moves R m -> (forall a, moves R (k a)) -> moves R (bind m k).
Proof.
  intros Hm Hk w. unfold bind. specialize (Hm w).
  destruct (m w) as [[a|e] w1]; simpl in *; [|done].
  eapply R_trans; [exact Hm|apply Hk].
Qed.

Lemma moves_try_catch {A} (m : M A) (h : Error -> M A) :
  moves R m -> (forall e, moves R (h e)) -> moves R (try_catch m h).
Proof.
  intros Hm Hk w. unfold try_catch. specialize (Hm w).
  destruct (m w) as [[a|e] w1]; simpl in *; [done|].
  eapply R_trans; [exact Hm|apply Hk].
Qed.

End Moves.

Ltac moves_step :=
  first
    [ apply moves_ret; assumption | apply moves_throw; assumption
    | apply moves_lift; assumption | apply moves_read; assumption
    | apply moves_record; assumption | apply moves_alloc; assumption
    | apply moves_on_object; assumption
    | match goal with
      | |- moves ?R (call ?c) => refine (moves_call R _ c); assumption
      end
    | apply moves_bind; [assumption| |intros ?]
    | apply moves_try_catch; [assumption| |intros ?]
    | match goal with
      | |- moves _ (if ?b then _ else _) => destruct b
      | |- moves _ (match ?x with _ => _ end) => destruct x
      end ].

Lemma marks_probator_refl t : marks_probator t t.
Proof. by left. Qed.

Lemma marks_probator_trans t1 t2 t3 :
  marks_probator t1 t2 -> marks_probator t2 t3 -> marks_probator t1 t3.
Proof.
  intros [->| ->] [->| ->]; try (by left); by right.
Qed.

Lemma run_task_marks_probator (t : Task) : moves marks_probator (run_task t).
Proof.
  pose proof marks_probator_refl as Hr.
  pose proof marks_probator_trans as Ht.
  destruct t; simpl;
    unfold void, produce_task, produceData_task, consume_task, consumeData_task;
    methods_unfold; cbv zeta; repeat moves_step.
  apply moves_update. intros t. by right.
Qed.

Lemma settle_marks_probator (p : Promise) (f : Fate) :
  moves marks_probator (settle p f).
Proof.
  pose proof marks_probator_refl as Hr.
  pose proof marks_probator_trans as Ht.
  unfold settle, queue_promise, on_rejected, produce_catch.
  apply moves_try_catch; [assumption| |intros e].
  - destruct f; [apply run_task_marks_probator|by apply moves_throw].
  - repeat moves_step.
Qed.

(** What each kind of action can change of the transport object: an
    operation nothing but the queue, by one submission; the settling of
    a promise nothing but the probe marker, which it can only set; an
    adapter event neither the probe marker, the queue nor the closed
    flag; and [close()] not the probe marker. *)
Theorem actions_change_only_their_part (a : Action) (w : World H) :
  let t := this w in
  let t' := this (perform a w) in
  match a with
  | ACall i =>
      t' = t \/
      exists c, t' = set_awaitQueue (fst (AwaitQueue.push c (_awaitQueue t))) t
  | ASettle p f => t' = t \/ t' = set_probatorConsumerCreated true t
  | ARaise s =>
      _probatorConsumerCreated t' = _probatorConsumerCreated t /\
      (is_close s = false ->
       _awaitQueue t' = _awaitQueue t /\ _closed t' = _closed t)
  end.
Proof.
  destruct a as [i|s|p f]; simpl.
  - destruct (enqueues i) eqn:He.
    + destruct (invoke_submits_or_fails i He) as (m & -> & Hm).
      specialize (Hm w). unfold submitting.
      destruct (m w) as [[p|e] w']; simpl.
      * right. exists (p_task p). by destruct Hm as (_ & _ & ->).
      * left. by destruct Hm as (_ & -> & _).
    + left. destruct w as [t h hp lg].
      destruct i; try discriminate He; simpl; unfold answering;
        methods_unfold; monad_simpl; destruct (_closed t); simpl; try done;
        by destruct (handle _ h hp) as [[[?|?] ?] ?].
  - destruct s as [|d|x|x]; simpl.
    + destruct (close_flag_set w) as (_ & _ & Hp & _). by split.
    + destruct w as [t h hp lg]. unfold on_connect. monad_simpl.
      destruct (_closed t) eqn:Hc; simpl; (split; [done|intros _; by split]).
    + destruct w as [t h hp lg]. unfold on_icegatheringstatechange.
      monad_simpl. case_bool_decide; simpl; [by auto|].
      destruct (_closed t) eqn:Hc; simpl; (split; [done|intros _; by split]).
    + destruct w as [t h hp lg]. unfold on_connectionstatechange.
      monad_simpl. case_bool_decide; simpl; [by auto|].
      destruct (_closed t) eqn:Hc; simpl; (split; [done|intros _; by split]).
  - apply settle_marks_probator.
Qed.

Lemma same_config_refl t : same_config t t.
Proof. by repeat split. Qed.

Lemma same_config_trans t1 t2 t3 :
  same_config t1 t2 -> same_config t2 t3 -> same_config t1 t3.
Proof.
  intros (H1 & H2 & H3 & H4 & H5) (G1 & G2 & G3 & G4 & G5).
  repeat split; try congruence. auto.
Qed.

Lemma perform_same_config (a : Action) (w : World H) :
  same_config (this w) (this (perform a w)).
Proof.
  destruct a as [i|s|p f]; simpl.
  - destruct (enqueues i) eqn:He.
    + destruct (invoke_submits_or_fails i He) as (m & -> & Hm).
      specialize (Hm w). unfold submitting.
      destruct (m w) as [[p|e] w']; simpl.
      * destruct Hm as (_ & _ & ->). by repeat split.
      * destruct Hm as (_ & -> & _). apply same_config_refl.
    + destruct w as [t h hp lg].
      destruct i; try discriminate He; simpl; unfold answering;
        methods_unfold; monad_simpl; destruct (_closed t) eqn:?; simpl;
        try apply same_config_refl;
        destruct (handle _ h hp) as [[[?|?] ?] ?]; apply same_config_refl.
  - destruct s as [|d|x|x]; simpl.
    + by destruct (close_flag_set w) as (_ & _ & _ & ?).
    + destruct w as [t h hp lg]. unfold on_connect. monad_simpl.
      destruct (_closed t); apply same_config_refl.
    + destruct w as [t h hp lg]. unfold on_icegatheringstatechange.
      monad_simpl. case_bool_decide; simpl; [apply same_config_refl|].
      destruct (_closed t); by repeat split.
    + destruct w as [t h hp lg]. unfold on_connectionstatechange.
      monad_simpl. case_bool_decide; simpl; [apply same_config_refl|].
      destruct (_closed t); by repeat split.
  - destruct (settle_marks_probator p f w) as [->| ->];
      [apply same_config_refl|by repeat split].
Qed.

(** Over any sequence of operations, adapter events, [close()] calls and
    settlements: the direction, the capabilities, the producible kinds
    and the maximum message size stay what they were, and a transport
    that is closed stays closed. *)
Theorem config_fixed_and_close_irreversible (l : list Action) (w : World H) :
  same_config (this w) (this (perform_all l w)).
Proof.
  revert w. induction l as [|a l IH]; intros w; simpl.
  - apply same_config_refl.
  - eapply same_config_trans; [apply perform_same_config|apply IH].
Qed.

Lemma react_axes (w : World H) (s : Stimulus) :
  _iceGatheringState (this (snd (react s w))) =
    last_gathering [s] (_iceGatheringState (this w)) /\
  (is_close s = false ->
   _connectionState (this (snd (react s w))) =
     last_raised [s] (_connectionState (this w))).
Proof.
  destruct s as [|d|x|x]; simpl.
  - by destruct (close_flag_set w) as (_ & ? & _).
  - destruct w as [t h hp lg]. unfold on_connect. monad_simpl.
    by destruct (_closed t).
  - destruct w as [t h hp lg]. unfold on_icegatheringstatechange.
    monad_simpl. case_bool_decide; simpl; [by subst|]. by destruct (_closed t).
  - destruct w as [t h hp lg]. unfold on_connectionstatechange.
    monad_simpl. case_bool_decide; simpl; [by subst|]. by destruct (_closed t).
Qed.

(** The gathering state is always the value the adapter raised last,
    whatever that value and whether or not the transport is closed, and
    so is the connection state as long as [close()] is not called: the
    listeners take any value, in any order. *)
Theorem states_follow_adapter (l : list Stimulus) (w : World H) :
  _iceGatheringState (this (react_all l w)) =
    last_gathering l (_iceGatheringState (this w)) /\
  (forallb (fun s => negb (is_close s)) l = true ->
   _connectionState (this (react_all l w)) =
     last_raised l (_connectionState (this w))).
Proof.
  revert w. induction l as [|s l IH]; intros w; simpl; [done|].
  destruct (react_axes w s) as [Hg Hc]. destruct (IH (snd (react s w))) as [Hg' Hc'].
  split.
  - rewrite Hg'. f_equal. exact Hg.
  - intros [Hs Hl]%andb_true_iff. apply negb_true_iff in Hs.
    rewrite (Hc' Hl). f_equal. by apply Hc.
Qed.

(** The statistics getters do not go through the queue: on a closed
    transport they fail with the closed failure and nothing happens; on
    an open one they make exactly their one adapter call, the transport
    object is left as it is, and they end as that call ends. *)
Theorem stats_bypass_queue (i : Invocation) (w : World H) :
  enqueues i = false ->
  exists c,
    lifecycle_call i = Some c /\
    (_closed (this w) = true ->
     invoke i w = (Throw (InvalidStateError "closed"), w)) /\
    (_closed (this w) = false ->
     since w (snd (invoke i w)) = [Call c (returned (fst (invoke i w)))] /\
     this (snd (invoke i w)) = this w /\
     returned (fst (invoke i w)) =
       returned (fst (fst (handle c (handler w) (heap w))))).
Proof.
  intros He. destruct w as [t h hp lg].
  destruct i; try discriminate He; (eexists; split; [reflexivity|]);
    simpl; unfold answering; methods_unfold; monad_simpl;
    (split; intros Hc; rewrite Hc; simpl; [done|]);
    destruct (handle _ h hp) as [[[?|?] ?] ?]; simpl; by since_simpl.
Qed.

(** An operation that is a single adapter call: once it has submitted
    its command, executing the command makes exactly that call, with
    what the caller passed, leaves the transport object as it is, and
    resolves or rejects as the call does. *)
Theorem lifecycle_operation_is_one_adapter_call
    (i : Invocation) (c : HandlerCall) (w w1 : World H) (p : Promise) :
  lifecycle_call i = Some c ->
  invoke i w = (Ok (Submitted p), w1) ->
  forall w2 : World H,
    let r := fst (settle p Executed w2) in
    let w3 := snd (settle p Executed w2) in
    since w2 w3 = [Call c (returned r)] /\
    this w3 = this w2 /\
    r = match fst (fst (handle c (handler w2) (heap w2))) with
        | Ok _ => Ok VVoid
        | Throw e => Throw e
        end.
Proof.
  intros Hc Hi [t2 h2 hp2 lg2].
  destruct w as [t h hp lg].
  destruct i; try discriminate Hc; injection Hc as <-;
    simpl in Hi; unfold submitting, answering in Hi; methods_unfold;
    monad_simpl;
    repeat match type of Hi with
      | context [if ?b then _ else _] => destruct b; simpl in Hi
      | context [let '(_, _) := ?x in _] => destruct x as [[[?|?] ?] ?]; simpl in Hi
      end;
    try discriminate Hi; injection Hi as <- <-;
    unfold settle, queue_promise, on_rejected; simpl; unfold void;
    monad_simpl;
    destruct (handle _ h2 hp2) as [[[?|?] ?] ?]; simpl; by since_simpl.
Qed.

(** An operation that is a single adapter call looks at the closed
    flag first, if it looks at it at all, and then at its argument:
    it submits exactly when neither check fails, and the promise it
    returns has no rejection handler of the transport's; the operations
    of a producer check nothing and submit on a closed transport too. *)
Theorem lifecycle_operation_submits_iff
    (i : Invocation) (c : HandlerCall) (w : World H) :
  lifecycle_call i = Some c ->
  enqueues i = true ->
  match fst (invoke i w) with
  | Ok out =>
      (exists p, out = Submitted p /\ p_catch p = NoCatch) /\
      checks_closed i && _closed (this w) = false /\
      argument_given i = true
  | Throw e =>
      if checks_closed i && _closed (this w)
      then e = InvalidStateError "closed"
      else argument_given i = false /\ failure_class e = Some BadArgument
  end.
Proof.
  intros Hc He. destruct w as [t h hp lg].
  destruct i; try discriminate Hc; try discriminate He; clear Hc He;
    simpl; unfold submitting; methods_unfold; monad_simpl;
    try (destruct (_closed t); simpl; [done|]);
    try (destruct (truthy iceParameters); simpl; [|done]);
    try (destruct (isArray iceServers); simpl; [|done]);
    (split; [by eauto|done]).
Qed.

(** [produceData()] submits its command exactly when the transport is
    open, a sending one and has a truthy maximum message size; it
    looks at none of its arguments, so it never fails for a bad
    argument. *)
Theorem produceData_submits_iff (o : DataProducerOptions) (w : World H) :
  ((exists p, fst (produceData o w) = Ok p) <->
   _closed (this w) = false /\ _direction (this w) = send /\
   truthy (_maxSctpMessageSize (this w)) = true) /\
  (forall e, fst (produceData o w) = Throw e ->
     (failure_class e = Some Closed <-> _closed (this w) = true) /\
     failure_class e <> Some BadArgument).
Proof.
  destruct w as [t h hp lg]. unfold produceData. monad_simpl.
  destruct (_closed t); simpl.
  { split; [split; [by intros [? ?]|by intros [? _]]|]. by intros e [= <-]. }
  case_bool_decide as Hd; simpl.
  2:{ split; [split; [by intros [? ?]|by intros (_ & ? & _)]|].
      by intros e [= <-]. }
  destruct (truthy (_maxSctpMessageSize t)); simpl.
  2:{ split; [split; [by intros [? ?]|by intros (_ & _ & ?)]|].
      by intros e [= <-]. }
  split; [|done]. split; [done|]. intros _. by eauto.
Qed.

(** The commands of [produceData] and [consumeData] make their one
    adapter call and leave the transport object as it is.  The first
    fails as the call fails, and otherwise ends as the validation of the
    returned stream parameters ends, which are left as the validation
    filled them; nothing is undone when the validation fails.  The
    second ends as the call ends, with the data channel it returned. *)
Theorem data_commands_end_as_call_and_validation (w : World H) :
  (forall ordered maxPacketLifeTime maxRetransmits label protocol,
     let t := TProduceData ordered maxPacketLifeTime maxRetransmits
                           label protocol in
     let c := HSendDataChannel
                {| ordered := ordered; maxPacketLifeTime := maxPacketLifeTime;
                   maxRetransmits := maxRetransmits;
                   sd_label := label; sd_protocol := protocol |} in
     this (snd (run_task t w)) = this w /\
     match handle c (handler w) (heap w) with
     | (Throw e, _, _) =>
         fst (run_task t w) = Throw e /\
         since w (snd (run_task t w)) = [Call c false]
     | (Ok sent, _, hp) =>
         let validated :=
           validateSctpStreamParameters (hp !!! sd_sctpStreamParameters sent) in
         since w (snd (run_task t w)) = [Call c true] /\
         heap (snd (run_task t w)) !! sd_sctpStreamParameters sent =
           Some (snd validated) /\
         fst (run_task t w) =
           match fst validated with
           | None => Ok (VSendData sent)
           | Some e => Throw e
           end
     end) /\
  (forall sctpStreamParameters label protocol,
     let t := TConsumeData sctpStreamParameters label protocol in
     let c := HReceiveDataChannel
                {| rd_sctpStreamParameters := sctpStreamParameters;
                   rd_label := label; rd_protocol := protocol |} in
     this (snd (run_task t w)) = this w /\
     heap (snd (run_task t w)) = snd (handle c (handler w) (heap w)) /\
     since w (snd (run_task t w)) = [Call c (returned (fst (run_task t w)))] /\
     fst (run_task t w) =
       match fst (fst (handle c (handler w) (heap w))) with
       | Ok dataChannel => Ok (VReceiveData dataChannel)
       | Throw e => Throw e
       end).
Proof.
  destruct w as [t h hp lg]. split; intros; simpl.
  - unfold produceData_task. methods_unfold. monad_simpl.
    destruct (handle _ h hp) as [[[sent|e] h1] hp1]; simpl;
      [|by since_simpl].
    destruct (validateSctpStreamParameters _) as [[e|] v']; simpl;
      since_simpl; by rewrite lookup_insert_eq.
  - unfold consumeData_task. monad_simpl.
    destruct (handle _ h hp) as [[[dc|e] h1] hp1]; simpl; by since_simpl.
Qed.

(** Settling a promise stops a track at most once, and never when the
    promise resolves or when it is not the promise of [produce()]. *)
Theorem track_stopped_at_most_once (p : Promise) (f : Fate) (w : World H) :
  let r := fst (settle p f w) in
  let stops := filter is_track_stop (since w (snd (settle p f w))) in
  (length stops <= 1)%nat /\
  (returned r = true -> stops = []) /\
  (p_catch p = NoCatch -> stops = []).
Proof.
  destruct p as [t c]. simpl. unfold settle, try_catch. simpl.
  assert (Hq : exists calls,
             log (snd (queue_promise f t w)) = log w ++ calls /\
             filter is_track_stop calls = []).
  { assert (Hn : forall calls,
               Forall (fun ev => is_adapter_call ev = true) calls ->
               filter is_track_stop calls = []).
    { induction 1 as [|ev calls Hev _ IH]; [done|].
      rewrite filter_bool_cons, IH. by destruct ev. }
    destruct f; simpl.
    - destruct (run_task_calls_only t w) as (calls & Hl & Hc). eauto.
    - exists []. by rewrite app_nil_r. }
  destruct Hq as (calls & Hl & Hn).
  destruct (queue_promise f t w) as [[v|e] wq]; simpl in *.
  - rewrite (since_app _ _ _ Hl), Hn. simpl. repeat split; lia.
  - destruct c as [|stopTracks track]; simpl.
    + rewrite (since_app _ _ _ Hl), Hn. simpl. repeat split; try done; lia.
    + unfold produce_catch. monad_simpl.
      destruct (truthy stopTracks); simpl.
      * assert (E : log wq ++ [Track_stop track] =
                    log w ++ calls ++ [Track_stop track])
          by (by rewrite Hl, <- app_assoc).
        destruct wq as [tq hq hpq lgq].
        rewrite (since_app _ _ (calls ++ [Track_stop track]))
          by exact E.
        rewrite filter_app, Hn. simpl.
        repeat split; try done; lia.
      * rewrite (since_app _ _ _ Hl), Hn. simpl. repeat split; try done; lia.
Qed.

(** The command [consume()] submits holds a reference to a new object,
    whose content is that of the caller's parameters as [canReceive]
    left its copy; every other object is as it was. *)
Theorem consume_command_holds_a_copy
    (o : ConsumerOptions) (w w1 : World H) (p : Promise) :
  consume o w = (Ok p, w1) ->
  exists id kind l',
    p_task p = TConsume id kind l' (c_streamId o) /\
    (l' ∉ dom (heap w)) /\
    heap w1 !! l' =
      Some (snd (canReceive (heap w !!! c_rtpParameters o)
                            (_extendedRtpCapabilities (this w)))) /\
    forall l, l <> l' -> heap w1 !! l = heap w !! l.
Proof.
  destruct w as [t h hp lg]. unfold consume, ortc_canReceive. monad_simpl.
  destruct (_closed t); simpl; [done|].
  case_bool_decide; simpl; [|done].
  destruct (c_id o); simpl; try done.
  destruct (is_string (c_producerId o)); simpl; [|done].
  destruct (c_kind o) as [| | | |kind| |]; simpl; try done.
  destruct (negb (String.eqb kind "audio") && negb (String.eqb kind "video"));
    simpl; [done|].
  rewrite lookup_total_insert_eq.
  destruct (canReceive (hp !!! c_rtpParameters o) _) as [[] v'] eqn:Hcan;
    simpl; [|done].
  intros [= <- <-]. simpl. eexists _, _, _. split; [reflexivity|].
  split; [apply is_fresh|]. split; [by rewrite lookup_insert_eq|].
  intros l Hl. by rewrite !lookup_insert_ne.
Qed.

(** ** The queue at work in the transport *)

Lemma enqueued_app l1 l2 : enqueued (l1 ++ l2) = enqueued l1 ++ enqueued l2.
Proof. apply omap_app. Qed.

Lemma quiet_events (evs : list Event) :
  Forall (fun e => enqueued [e] = [] /\ is_command_call e = false) evs ->
  enqueued evs = [] /\ filter is_command_call evs = [].
Proof.
  induction 1 as [|e evs [He Hc] _ [IH1 IH2]]; [done|].
  rewrite filter_bool_cons, Hc, IH2.
  change (e :: evs) with ([e] ++ evs). by rewrite enqueued_app, He, IH1.
Qed.

Lemma command_events (evs : list Event) :
  Forall (fun e => enqueued [e] = [] /\
                   is_command_call e = is_adapter_call e) evs ->
  enqueued evs = [] /\
  filter is_command_call evs = filter is_adapter_call evs.
Proof.
  induction 1 as [|e evs [He Hc] _ [IH1 IH2]]; [done|].
  rewrite !filter_bool_cons, Hc, IH2.
  change (e :: evs) with ([e] ++ evs). by rewrite enqueued_app, He, IH1.
Qed.

Lemma since_step (w0 w w1 : World H) evs :
  log w = log w0 ++ since w0 w -> log w1 = log w ++ evs ->
  log w1 = log w0 ++ since w0 w1 /\ since w0 w1 = since w0 w ++ evs.
Proof.
  intros Hw Hw1.
  assert (E : log w1 = log w0 ++ since w0 w ++ evs)
    by (by rewrite Hw1, Hw at 1; rewrite <- app_assoc).
  rewrite (since_app _ _ _ E). by split.
Qed.

Lemma invoke_effect (i : Invocation) (w : World H) :
  match invoke i w with
  | (Ok (Submitted p), w1) =>
      log w1 = log w ++ [Enqueue (p_task p)] /\
      _awaitQueue (this w1) =
        fst (AwaitQueue.push (p_task p) (_awaitQueue (this w)))
  | (_, w1) =>
      log w1 = log w ++ since w w1 /\
      Forall (fun e => enqueued [e] = [] /\ is_command_call e = false)
             (since w w1) /\
      _awaitQueue (this w1) = _awaitQueue (this w)
  end.
Proof.
  destruct (enqueues i) eqn:He.
  - destruct (invoke_submits_or_fails i He) as (m & -> & Hm).
    specialize (Hm w). unfold submitting.
    destruct (m w) as [[p|e] w1]; simpl.
    + destruct Hm as (Hl & _ & Ht). by rewrite Ht.
    + destruct Hm as (Hl & Ht & _).
      assert (E : log w1 = log w ++ []) by (by rewrite app_nil_r).
      rewrite (since_app _ _ _ E), Ht. by repeat split.
  - destruct w as [t h hp lg].
    destruct i; try discriminate He; simpl; unfold answering;
      methods_unfold; monad_simpl; destruct (_closed t); simpl;
      try (since_simpl; by repeat split);
      destruct (handle _ h hp) as [[[?|?] ?] ?]; simpl; since_simpl;
      (split; [done|split; [|done]]); by repeat constructor.
Qed.

Lemma react_effect (s : Stimulus) (w : World H) :
  let w1 := snd (react s w) in
  log w1 = log w ++ since w w1 /\
  Forall (fun e => enqueued [e] = [] /\ is_command_call e = false)
         (since w w1) /\
  _awaitQueue (this w1) =
    if is_close s && negb (_closed (this w))
    then fst (AwaitQueue.stop (_awaitQueue (this w)))
    else _awaitQueue (this w).
Proof.
  destruct w as [t h hp lg]. destruct s as [|d|x|x]; simpl.
  - unfold close. monad_simpl. destruct (_closed t) eqn:Hc; simpl.
    { since_simpl. by repeat split. }
    destruct (handle HClose h hp) as [[[[]|e] h'] hp']; simpl; since_simpl;
      (split; [done|split; [|done]]); by repeat constructor.
  - unfold on_connect. monad_simpl.
    destruct (_closed t); simpl; since_simpl;
      (split; [done|split; [|done]]); by repeat constructor.
  - unfold on_icegatheringstatechange. monad_simpl.
    case_bool_decide; simpl; [since_simpl; by repeat split|].
    destruct (_closed t); simpl; since_simpl;
      (split; [done|split; [|done]]); by repeat constructor.
  - unfold on_connectionstatechange. monad_simpl.
    case_bool_decide; simpl; [since_simpl; by repeat split|].
    destruct (_closed t); simpl; since_simpl;
      (split; [done|split; [|done]]); by repeat constructor.
Qed.

Lemma run_task_of_command (t : Task) :
  adds (fun e => enqueued [e] = [] /\ is_command_call e = is_adapter_call e)
       (run_task t).
Proof.
  destruct t; simpl;
    unfold void, produce_task, produceData_task, consume_task, consumeData_task;
    methods_unfold; cbv zeta; repeat adds_step.
Qed.

Lemma rejection_quiet (c : Catch) (e : Error) :
  adds (fun e => enqueued [e] = [] /\ is_command_call e = false /\
                 is_adapter_call e = false)
       (on_rejected c e).
Proof.
  destruct c; simpl; unfold produce_catch; repeat adds_step.
Qed.

Lemma settle_queue (p : Promise) (f : Fate) (w : World H) :
  _awaitQueue (this (snd (settle p f w))) = _awaitQueue (this w).
Proof. by destruct (settle_marks_probator p f w) as [->| ->]. Qed.

Lemma filter_all (P : Event -> bool) (evs : list Event) :
  Forall (fun e => P e = true) evs -> filter P evs = evs.
Proof.
  induction 1 as [|e evs He _ IH]; [done|].
  by rewrite filter_bool_cons, He, IH.
Qed.

Lemma filter_none (P : Event -> bool) (evs : list Event) :
  Forall (fun e => P e = false) evs -> filter P evs = [].
Proof.
  induction 1 as [|e evs He _ IH]; [done|].
  by rewrite filter_bool_cons, He, IH.
Qed.

Lemma settle_effect (p : Promise) (f : Fate) (w : World H) :
  let w1 := snd (settle p f w) in
  log w1 = log w ++ since w w1 /\
  enqueued (since w w1) = [] /\
  filter is_command_call (since w w1) =
    match f with
    | Executed => since w (snd (run_task (p_task p) w))
    | Stopped => []
    end /\
  filter is_adapter_call (since w w1) =
    match f with
    | Executed => since w (snd (run_task (p_task p) w))
    | Stopped => []
    end.
Proof.
  simpl. unfold settle, try_catch.
  assert (Hq : exists calls,
             log (snd (queue_promise f (p_task p) w)) = log w ++ calls /\
             Forall (fun e => enqueued [e] = [] /\
                              is_command_call e = is_adapter_call e) calls /\
             Forall (fun e => is_adapter_call e = true) calls /\
             calls = match f with
                     | Executed => since w (snd (run_task (p_task p) w))
                     | Stopped => []
                     end).
  { destruct f; simpl.
    - destruct (run_task_of_command (p_task p) w) as (calls & Hl & Hc).
      destruct (run_task_calls_only (p_task p) w) as (calls' & Hl' & Hc').
      assert (calls' = calls) as -> by (rewrite Hl in Hl'; by simplify_list_eq).
      exists calls. by rewrite (since_app _ _ _ Hl).
    - exists []. by rewrite app_nil_r. }
  destruct Hq as (calls & Hl & Hc & Ha & Hf).
  destruct (queue_promise f (p_task p) w) as [[v|e] wq]; simpl in *.
  - rewrite (since_app _ _ _ Hl). split; [done|].
    destruct (command_events _ Hc) as [He Hcc].
    split; [done|]. rewrite Hcc, (filter_all _ _ Ha). by split.
  - destruct (rejection_quiet (p_catch p) e wq) as (stops & Hl' & Hs).
    assert (E : log (snd (on_rejected (p_catch p) e wq)) =
                log w ++ calls ++ stops)
      by (by rewrite Hl', Hl, <- app_assoc).
    rewrite (since_app _ _ _ E). split; [done|].
    destruct (command_events _ Hc) as [He Hcc].
    rewrite enqueued_app, !filter_app, He, Hcc, (filter_all _ _ Ha).
    assert (Hs1 : enqueued stops = [] /\ filter is_command_call stops = []).
    { apply quiet_events. eapply Forall_impl; [exact Hs|].
      by intros ? (? & ? & _). }
    assert (Hs2 : filter is_adapter_call stops = []).
    { apply filter_none. eapply Forall_impl; [exact Hs|].
      by intros ? (_ & _ & ?). }
    destruct Hs1 as [-> ->]. rewrite Hs2, !app_nil_r. by rewrite Hf.
Qed.

Lemma reject_all_effect (ps : list Promise) (w : World H) :
  let w1 := reject_all ps w in
  log w1 = log w ++ since w w1 /\
  enqueued (since w w1) = [] /\
  filter is_command_call (since w w1) = [] /\
  _awaitQueue (this w1) = _awaitQueue (this w).
Proof.
  revert w. induction ps as [|p ps IH]; intros w; simpl.
  - rewrite since_refl, app_nil_r. by repeat split.
  - destruct (settle_effect p Stopped w) as (Hl & He & Hc & _).
    destruct (IH (snd (settle p Stopped w))) as (Hl' & He' & Hc' & Hq').
    simpl in *.
    assert (E : log (reject_all ps (snd (settle p Stopped w))) =
                log w ++ since w (snd (settle p Stopped w)) ++
                since (snd (settle p Stopped w))
                      (reject_all ps (snd (settle p Stopped w))))
      by (by rewrite Hl' at 1; rewrite Hl at 1; rewrite <- app_assoc).
    unfold reject_all in *. simpl. rewrite (since_app _ _ _ E).
    split; [exact E|].
    rewrite enqueued_app, filter_app, He, He', Hc, Hc'.
    by rewrite Hq', settle_queue.
Qed.

Lemma consistent_quiet (w0 : World H) (s : System H) (w1 : World H) :
  sys_consistent w0 s ->
  log w1 = log (sys_world s) ++ since (sys_world s) w1 ->
  enqueued (since (sys_world s) w1) = [] ->
  filter is_command_call (since (sys_world s) w1) = [] ->
  _awaitQueue (this w1) = _awaitQueue (this (sys_world s)) ->
  sys_consistent w0
    {| sys_world := w1; sys_promises := sys_promises s;
       sys_inputs := sys_inputs s; sys_obs := sys_obs s;
       sys_runs := sys_runs s |}.
Proof.
  intros [Hq Ho Hl Hs Hp Hr Hc He] Hl1 He1 Hc1 Hq1.
  destruct (since_step w0 _ w1 _ Hl Hl1) as [Hl2 Hs2].
  split; simpl.
  - by rewrite Hq1.
  - done.
  - done.
  - by rewrite Hs2, enqueued_app, He1, app_nil_r.
  - by rewrite Hq1.
  - done.
  - by rewrite Hs2, filter_app, Hc1, app_nil_r.
  - done.
Qed.

Lemma consistent_input (w0 : World H) (s : System H) (w1 : World H)
    (i : AwaitQueue.input Task) (ps : list Promise) :
  let q := _awaitQueue (this (sys_world s)) in
  sys_consistent w0 s ->
  log w1 = log (sys_world s) ++ since (sys_world s) w1 ->
  enqueued (since (sys_world s) w1) = AwaitQueue.submitted [i] ->
  filter is_command_call (since (sys_world s) w1) = [] ->
  _awaitQueue (this w1) = fst (AwaitQueue.step q i) ->
  p_task <$> ps =
    option_list (AwaitQueue.running (fst (AwaitQueue.step q i))) ++
    AwaitQueue.waiting (fst (AwaitQueue.step q i)) ->
  AwaitQueue.finished (snd (AwaitQueue.step q i)) = [] ->
  sys_consistent w0
    {| sys_world := w1; sys_promises := ps;
       sys_inputs := sys_inputs s ++ [i];
       sys_obs := sys_obs s ++ snd (AwaitQueue.step q i);
       sys_runs := sys_runs s |}.
Proof.
  intros q [Hq Ho Hl Hs Hp Hr Hc He] Hl1 He1 Hc1 Hq1 Hp1 Hf1.
  destruct (since_step w0 _ w1 _ Hl Hl1) as [Hl2 Hs2].
  split; simpl; rewrite ?run_snoc; simpl; rewrite <- ?Hq, <- ?Ho.
  - done.
  - done.
  - done.
  - by rewrite submitted_app, Hs, Hs2, enqueued_app, He1.
  - by rewrite Hq1.
  - by rewrite finished_app, Hf1, app_nil_r.
  - by rewrite Hs2, filter_app, Hc1, app_nil_r.
  - done.
Qed.

Lemma since_with_queue (w0 : World H) q (w : World H) :
  since w0 (with_queue q w) = since w0 w.
Proof. done. Qed.

Lemma sys_step_consistent (w0 : World H) (s : System H) (m : Move) :
  sys_consistent w0 s -> sys_consistent w0 (sys_step s m).
Proof.
  intros Hs. pose proof Hs as [Hq Ho Hl Hsub Hp Hr Hc He].
  destruct s as [w ps ins os runs]. simpl in *.
  destruct m as [i|s0|]; unfold sys_step; simpl.
  - pose proof (invoke_effect i w) as Hi.
    destruct (invoke i w) as [[[p|v]|e] w1].
    + destruct Hi as [Hl1 Hq1].
      destruct (AwaitQueue.stopped (_awaitQueue (this w))) eqn:Hst.
      * destruct (settle_effect p Stopped w1) as (Hl2 & He2 & Hc2 & _).
        simpl in Hl2, He2, Hc2.
        assert (E : log (snd (settle p Stopped w1)) =
                    log w ++ [Enqueue (p_task p)] ++
                    since w1 (snd (settle p Stopped w1)))
          by (by rewrite Hl2 at 1; rewrite Hl1, <- app_assoc).
        apply (consistent_input w0 _ _ (AwaitQueue.Push (p_task p)) ps Hs);
          simpl; rewrite ?(since_app _ _ _ E).
        -- exact E.
        -- by rewrite enqueued_app, He2.
        -- by rewrite filter_app, Hc2, filter_bool_cons.
        -- by rewrite settle_queue.
        -- unfold AwaitQueue.push. by rewrite Hst.
        -- unfold AwaitQueue.push. by rewrite Hst.
      * apply (consistent_input w0 _ _ (AwaitQueue.Push (p_task p))
                                (ps ++ [p]) Hs);
          simpl; rewrite ?(since_app _ _ _ Hl1); try done.
        -- rewrite fmap_app, Hp. unfold AwaitQueue.push. rewrite Hst.
           destruct (AwaitQueue.running _) as [t|];
             destruct (AwaitQueue.waiting _) as [|y wt]; simpl;
             by rewrite <- ?app_assoc.
        -- unfold AwaitQueue.push. rewrite Hst.
           by destruct (AwaitQueue.running _) as [t|];
             destruct (AwaitQueue.waiting _) as [|y wt].
    + destruct Hi as (Hl1 & Hf1 & Hq1).
      destruct (quiet_events _ Hf1) as [He1 Hc1].
      by apply (consistent_quiet w0 _ w1 Hs).
    + destruct Hi as (Hl1 & Hf1 & Hq1).
      destruct (quiet_events _ Hf1) as [He1 Hc1].
      by apply (consistent_quiet w0 _ w1 Hs).
  - destruct (react_effect s0 w) as (Hl1 & Hf1 & Hq1).
    destruct (quiet_events _ Hf1) as [He1 Hc1]. simpl in Hl1, Hq1.
    destruct s0 as [|d|x|x]; simpl in *;
      try (by apply (consistent_quiet w0 _ _ Hs)).
    destruct (_closed (this w)) eqn:Hcl; simpl in *.
    { by apply (consistent_quiet w0 _ _ Hs). }
    set (n := length (option_list (AwaitQueue.running (_awaitQueue (this w))))).
    destruct (reject_all_effect (drop n ps) (snd (close w)))
      as (Hl2 & He2 & Hc2 & Hq2). simpl in Hl2, He2, Hc2, Hq2.
    assert (E : log (reject_all (drop n ps) (snd (close w))) =
                log w ++ since w (snd (close w)) ++
                since (snd (close w)) (reject_all (drop n ps) (snd (close w))))
      by (by rewrite Hl2 at 1; rewrite Hl1 at 1; rewrite <- app_assoc).
    apply (consistent_input w0 _ _ AwaitQueue.Stop (take n ps) Hs);
      simpl; rewrite ?(since_app _ _ _ E).
    + exact E.
    + by rewrite enqueued_app, He1, He2.
    + by rewrite filter_app, Hc1, Hc2.
    + by rewrite Hq2, Hq1.
    + rewrite app_nil_r, fmap_take, Hp. subst n.
      by rewrite take_app_length.
    + apply finished_rejects.
  - destruct (AwaitQueue.running (_awaitQueue (this w))) as [t|] eqn:Hrun;
      [|done].
    destruct ps as [|p rest]; [done|]. simpl in Hp.
    injection Hp as Hpt Hprest.
    destruct (settle_effect p Executed w) as (Hl1 & He1 & Hc1 & Ha1).
    simpl in Hl1, He1, Hc1, Ha1. rewrite Hpt in Hc1, Ha1.
    pose proof (settle_queue p Executed w) as Hq1.
    destruct (since_step w0 w _ _ Hl Hl1) as [Hl2 Hs2].
    set (ok := returned (fst (run_task t w))).
    rewrite Hq1.
    split; simpl; rewrite ?since_with_queue, ?run_snoc; simpl;
      rewrite <- ?Hq, <- ?Ho.
    + done.
    + done.
    + done.
    + by rewrite submitted_app, Hsub, Hs2, enqueued_app, He1, !app_nil_r.
    + unfold AwaitQueue.settle. rewrite Hrun.
      destruct (AwaitQueue.waiting _) as [|y wt]; simpl; exact Hprest.
    + rewrite fmap_app, finished_app, Hr. f_equal.
      unfold AwaitQueue.settle. rewrite Hrun.
      by destruct (AwaitQueue.waiting _) as [|y wt].
    + rewrite Hs2, filter_app, Hc, Hc1, fmap_app, concat_app. simpl.
      rewrite app_nil_r. f_equal. unfold run_calls. simpl. by rewrite Ha1.
    + apply Forall_app. split; [done|]. constructor; [|done].
      exists w. unfold run_calls. simpl. by rewrite Ha1.
Qed.

Lemma sys_run_consistent (w0 : World H) (ms : list Move) :
  _awaitQueue (this w0) = AwaitQueue.empty ->
  sys_consistent w0 (sys_run (sys_start w0) ms).
Proof.
  intros Hq. induction ms as [|m ms IH] using rev_ind.
  - split; simpl; rewrite ?since_refl, ?app_nil_r, ?Hq; done.
  - unfold sys_run. rewrite foldl_snoc. by apply sys_step_consistent.
Qed.


End Facts.

(** ** The encodings [produce] hands to the adapter *)

Section EncodingFacts.

Lemma get_total o : nullish o = false -> forall k, get o k = Ok (prop o k).
Proof. intros Hn k. unfold prop. by destruct o. Qed.

Lemma assoc_kept (b : bool) k k' v rest :
  assoc k ((if b then [(k', v)] else []) ++ rest) =
  if b && String.eqb k k' then v else assoc k rest.
Proof. destruct b; simpl; [|done]. by destruct (String.eqb k k'). Qed.

Lemma assoc_kept_last (b : bool) k k' v :
  assoc k (if b then [(k', v)] else []) =
  if b && String.eqb k k' then v else JsUndefined.
Proof. destruct b; simpl; [|done]. by destruct (String.eqb k k'). Qed.

Lemma normalizeEncoding_shape e :
  nullish e = false ->
  normalizeEncoding e =
    Ok (JsObject
          (("active",
            JsBool (match prop e "active" with JsBool false => false | _ => true end))
           :: (if is_boolean (prop e "dtx") then [("dtx", prop e "dtx")] else [])
           ++ (if is_string (prop e "scalabilityMode")
               then [("scalabilityMode", prop e "scalabilityMode")] else [])
           ++ (if is_number (prop e "scaleResolutionDownBy")
               then [("scaleResolutionDownBy", prop e "scaleResolutionDownBy")] else [])
           ++ (if is_number (prop e "maxBitrate")
               then [("maxBitrate", prop e "maxBitrate")] else [])
           ++ (if is_number (prop e "maxFramerate")
               then [("maxFramerate", prop e "maxFramerate")] else [])
           ++ (if is_boolean (prop e "adaptivePtime")
               then [("adaptivePtime", prop e "adaptivePtime")] else [])
           ++ (if is_string (prop e "priority")
               then [("priority", prop e "priority")] else [])
           ++ (if is_string (prop e "networkPriority")
               then [("networkPriority", prop e "networkPriority")] else []))).
Proof.
  intros Hn. unfold normalizeEncoding. rewrite (get_total e Hn "active").
  reflexivity.
Qed.

Lemma normalizeEncoding_nullish e :
  nullish e = true -> exists m, normalizeEncoding e = Throw (TypeError m).
Proof. destruct e; try done; intros _; eexists; reflexivity. Qed.

Lemma normalizeEncoding_Ok e e' :
  normalizeEncoding e = Ok e' -> nullish e = false /\ nullish e' = false.
Proof.
  destruct (nullish e) eqn:Hn.
  - by destruct (normalizeEncoding_nullish e Hn) as [m ->].
  - rewrite (normalizeEncoding_shape e Hn). by intros [= <-].
Qed.

Lemma normalizeEncoding_Throw e err :
  normalizeEncoding e = Throw err -> nullish e = true.
Proof.
  destruct (nullish e) eqn:Hn; [done|].
  by rewrite (normalizeEncoding_shape e Hn).
Qed.

Lemma normalizeEncoding_fields e e' :
  normalizeEncoding e = Ok e' ->
  forall k,
    prop e' k =
      if String.eqb k "active"
      then JsBool (negb (is_false (prop e "active")))
      else if bool_decide (field_type k = Some (typeof (prop e k)))
           then prop e k else JsUndefined.
Proof.
  intros He k. destruct (normalizeEncoding_Ok e e' He) as [Hn _].
  rewrite (normalizeEncoding_shape e Hn) in He. injection He as <-.
  unfold prop at 1. simpl.
  destruct (String.eqb_spec k "active") as [->|Hk]; simpl.
  { destruct (prop e "active") as [| |[]| | | |]; reflexivity. }
  rewrite !assoc_kept, assoc_kept_last.
  unfold field_type.
  repeat match goal with
  | |- context [String.eqb k ?s] =>
      destruct (String.eqb_spec k s) as [->|?]; simpl;
      rewrite ?andb_false_r, ?andb_true_r
  end;
  try done;
  repeat match goal with
  | |- context [is_boolean ?v] => unfold is_boolean; destruct (typeof v) eqn:?; simpl
  | |- context [is_string ?v] => unfold is_string; destruct (typeof v) eqn:?; simpl
  | |- context [is_number ?v] => unfold is_number; destruct (typeof v) eqn:?; simpl
  end; try done.
Qed.

Lemma kept_boolean (k : string) (v : JsValue) :
  (if is_boolean (if bool_decide (Some TyBoolean = Some (typeof v))
                  then v else JsUndefined)
   then [(k, if bool_decide (Some TyBoolean = Some (typeof v))
             then v else JsUndefined)] else []) =
  (if is_boolean v then [(k, v)] else []).
Proof. unfold is_boolean. by destruct v. Qed.

Lemma kept_string (k : string) (v : JsValue) :
  (if is_string (if bool_decide (Some TyString = Some (typeof v))
                 then v else JsUndefined)
   then [(k, if bool_decide (Some TyString = Some (typeof v))
             then v else JsUndefined)] else []) =
  (if is_string v then [(k, v)] else []).
Proof. unfold is_string. by destruct v. Qed.

Lemma kept_number (k : string) (v : JsValue) :
  (if is_number (if bool_decide (Some TyNumber = Some (typeof v))
                 then v else JsUndefined)
   then [(k, if bool_decide (Some TyNumber = Some (typeof v))
             then v else JsUndefined)] else []) =
  (if is_number v then [(k, v)] else []).
Proof. unfold is_number. by destruct v. Qed.

Lemma normalizeEncoding_again (e e' : JsValue) :
  normalizeEncoding e = Ok e' -> normalizeEncoding e' = Ok e'.
Proof.
  intros He.
  pose proof (normalizeEncoding_fields e e' He) as Hk.
  destruct (normalizeEncoding_Ok e e' He) as [Hn Hn'].
  rewrite (normalizeEncoding_shape e' Hn').
  rewrite !Hk. simpl.
  rewrite !kept_boolean, !kept_string, !kept_number.
  rewrite <- He, (normalizeEncoding_shape e Hn).
  by destruct (prop e "active") as [| |[]| | | |].
Qed.

(** Each encoding [produce] passes on: a nullish element makes the
    command fail; any other value, object or not, gives an object in
    which [active] is a boolean, false only when the given [active] is
    the boolean false, every other admitted field is present exactly
    when the given value has the field's type, with that value, and no
    other field exists; normalizing the result again gives it back. *)
Theorem normalizeEncoding_keeps_typed_fields (e : JsValue) :
  match normalizeEncoding e with
  | Throw _ => nullish e = true
  | Ok e' =>
      nullish e = false /\
      (forall k,
         prop e' k =
           if String.eqb k "active"
           then JsBool (negb (is_false (prop e "active")))
           else if bool_decide (field_type k = Some (typeof (prop e k)))
                then prop e k else JsUndefined) /\
      normalizeEncoding e' = Ok e'
  end.
Proof.
  destruct (normalizeEncoding e) as [e'|err] eqn:He.
  - split; [by destruct (normalizeEncoding_Ok e e' He)|].
    split; [by apply normalizeEncoding_fields|].
    by apply (normalizeEncoding_again e).
  - by apply (normalizeEncoding_Throw e err).
Qed.

Lemma mapM_res_Ok {A B} (f : A -> Res B) l l' :
  mapM_res f l = Ok l' <-> Forall2 (fun x y => f x = Ok y) l l'.
Proof.
  revert l'. induction l as [|x l IH]; intros l'; simpl.
  - split; [intros [= <-]; constructor|by inversion 1].
  - destruct (f x) as [y|e] eqn:Hx.
    + destruct (mapM_res f l) as [ys|e] eqn:Hl.
      * split.
        -- intros [= <-]. constructor; [done|]. by apply IH.
        -- inversion 1 as [|? y' ? ys' Hy Hys]; subst.
           rewrite Hx in Hy. injection Hy as <-.
           apply IH in Hys. by injection Hys as <-.
      * split; [done|]. inversion 1 as [|? y' ? ys' Hy Hys]; subst.
        by apply IH in Hys.
    + split; [done|]. inversion 1 as [|? y' ? ys' Hy Hys]; subst.
      by rewrite Hx in Hy.
Qed.

Lemma mapM_res_Throw {A B} (f : A -> Res B) l e :
  mapM_res f l = Throw e -> Exists (fun x => f x = Throw e) l.
Proof.
  induction l as [|x l IH]; simpl; [done|].
  destruct (f x) as [y|e'] eqn:Hx.
  - destruct (mapM_res f l) as [ys|e'']; [done|].
    intros [= ->]. right. by apply IH.
  - intros [= ->]. by left.
Qed.

(** The encodings as a whole: the command fails when [encodings] is
    truthy and not an array, or an array with a nullish element; it
    passes [undefined] on for a falsy value and for the empty array;
    and for an array of other values it passes the array of their
    normalizations, element by element and in order.  What it passes on
    is left as it is by a second normalization. *)
Theorem normalizeEncodings_result (encodings : JsValue) :
  match normalizeEncodings encodings with
  | Throw e =>
      (truthy encodings = true /\ isArray encodings = false /\
       e = TypeError "encodings must be an array") \/
      (exists items, encodings = JsArray items /\
                     Exists (fun x => nullish x = true) items)
  | Ok r =>
      ((r = JsUndefined /\ (truthy encodings = false \/ encodings = JsArray [])) \/
       (exists items l,
          encodings = JsArray items /\ items <> [] /\ r = JsArray l /\
          Forall (fun x => nullish x = false) items /\
          Forall2 (fun x y => normalizeEncoding x = Ok y) items l)) /\
      normalizeEncodings r = Ok r
  end.
Proof.
  unfold normalizeEncodings.
  destruct encodings as [| |b|n|s|items|fs]; simpl;
    try (split; [left|]; by auto);
    try (destruct b; try (split; [left|]; by auto); left; by auto).
  - destruct (n =? 0); simpl; [split; [left|]; by auto|left; by auto].
  - destruct (String.eqb s ""); simpl; [split; [left|]; by auto|left; by auto].
  - destruct items as [|x items]; [split; [left|]; by auto|].
    destruct (mapM_res normalizeEncoding (x :: items)) as [l|e] eqn:Hm.
    + apply mapM_res_Ok in Hm. split.
      * right. exists (x :: items), l. repeat split; try done.
        clear -Hm.
        induction Hm as [|a b la lb Hab _ IH]; constructor; [|done].
        by destruct (normalizeEncoding_Ok a b Hab).
      * simpl. destruct l as [|y l]; [by inversion Hm|].
        assert (Hl : mapM_res normalizeEncoding (y :: l) = Ok (y :: l)).
        { apply mapM_res_Ok. clear -Hm.
          remember (x :: items) as xs eqn:Hxs. remember (y :: l) as ys eqn:Hys.
          clear Hxs Hys.
          induction Hm as [|a b la lb Hab _ IH]; constructor; [|done].
          by apply (normalizeEncoding_again a). }
        by rewrite Hl.
    + right. exists (x :: items). split; [done|].
      apply mapM_res_Throw in Hm. eapply Exists_impl; [exact Hm|].
      intros a Ha. by apply (normalizeEncoding_Throw a e).
  - left. by auto.
Qed.

End EncodingFacts.

(** ** The settings the constructor keeps *)

Section SettingsFacts.

Lemma assoc_filter_ne (k k' : string) (fs : list (string * JsValue)) :
  assoc k (filter (fun kv => kv.1 <> k') fs) =
  if String.eqb k k' then JsUndefined else assoc k fs.
Proof.
  induction fs as [|[k0 v] fs IH]; simpl.
  - by destruct (String.eqb k k').
  - rewrite filter_cons. simpl. case_decide as Hk0; simpl.
    + rewrite IH. destruct (String.eqb_spec k k0) as [->|?].
      * by rewrite (proj2 (String.eqb_neq k0 k')).
      * done.
    + subst k0. rewrite IH.
      by destruct (String.eqb_spec k k').
Qed.

Lemma prop_delete_property (k k' : string) (o : JsValue) :
  prop (delete_property k' o) k =
  if String.eqb k k' then
    match o with JsObject _ => JsUndefined | _ => prop o k end
  else prop o k.
Proof.
  destruct o; simpl; try by destruct (String.eqb k k').
  unfold prop. simpl. apply assoc_filter_ne.
Qed.

Lemma nullish_delete_property k o :
  nullish (delete_property k o) = nullish o.
Proof. by destruct o. Qed.

(** The sanitized copy of [additionalSettings] is never nullish, even
    when the caller gave none; the five settings the transport decides
    itself are absent from it whatever the caller put there; every
    other setting is the caller's; and settings that went through once
    come out unchanged. *)
Theorem clonedAdditionalSettings_drops_overridden (additionalSettings : JsValue) :
  nullish (clonedAdditionalSettings additionalSettings) = false /\
  (forall k,
     prop (clonedAdditionalSettings additionalSettings) k =
       if bool_decide (k ∈ overridden_settings) then JsUndefined
       else prop additionalSettings k) /\
  clonedAdditionalSettings (clonedAdditionalSettings additionalSettings) =
    clonedAdditionalSettings additionalSettings.
Proof.
  unfold clonedAdditionalSettings, nullish_coalesce. cbv zeta.
  split; [|split].
  - rewrite !nullish_delete_property. by destruct additionalSettings.
  - intros k. rewrite !prop_delete_property. unfold overridden_settings.
    destruct (nullish additionalSettings) eqn:Hn.
    + assert (prop additionalSettings k = JsUndefined) as ->
        by (by destruct additionalSettings).
      simpl. repeat (case_match; try done).
    + repeat match goal with
        | |- context [String.eqb k ?s] =>
            destruct (String.eqb_spec k s) as [->|?]; simpl
        end;
      try (rewrite bool_decide_true by (rewrite !elem_of_cons; tauto));
      try (rewrite bool_decide_false
             by (rewrite !elem_of_cons, elem_of_nil; tauto));
      by destruct additionalSettings.
  - rewrite !nullish_delete_property.
    destruct (nullish additionalSettings) eqn:Hn; [done|].
    rewrite Hn.
    destruct additionalSettings; simpl; try done.
    f_equal. rewrite !list_filter_filter. apply list_filter_iff. intros ?; tauto.
Qed.

End SettingsFacts.

(** ** The fingerprints of the certificate *)

Section FingerprintFacts.

Lemma upper_ascii_hex c :
  is_hex_colon c = true -> is_upper_hex_colon (upper_ascii c) = true.
Proof. destruct c as [[] [] [] [] [] [] [] []]; vm_compute; done. Qed.

Lemma upper_ascii_upper c :
  is_upper_hex_colon c = true -> upper_ascii c = c.
Proof. destruct c as [[] [] [] [] [] [] [] []]; vm_compute; done. Qed.

Lemma toUpperCase_length s : String.length (toUpperCase s) = String.length s.
Proof. induction s; simpl; congruence. Qed.

Lemma toUpperCase_hex s :
  all_chars is_hex_colon s = true ->
  all_chars is_upper_hex_colon (toUpperCase s) = true.
Proof.
  induction s as [|c s IH]; simpl; [done|].
  intros [Hc Hs]%andb_true_iff. by rewrite upper_ascii_hex, IH.
Qed.

Lemma toUpperCase_upper s :
  all_chars is_upper_hex_colon s = true -> toUpperCase s = s.
Proof.
  induction s as [|c s IH]; simpl; [done|].
  intros [Hc Hs]%andb_true_iff. by rewrite upper_ascii_upper, IH.
Qed.

(** For a certificate whose fingerprint values are hexadecimal bytes
    separated by colons, [fingerprints] returns one entry per
    fingerprint, in order, with the algorithm untouched and the value,
    where there is one, of the same length, in upper-case hexadecimal,
    and unchanged when it was so already; a fingerprint without value
    stays without. *)
Theorem fingerprints_upper_case (fps : list RTCDtlsFingerprint) :
  forallb hex_fingerprint fps = true ->
  exists out,
    fingerprints (Some fps) = Ok out /\
    Forall2 (fun f g =>
               fp_algorithm g = fp_algorithm f /\
               match fp_value f, fp_value g with
               | None, None => True
               | Some v, Some u =>
                   String.length u = String.length v /\
                   all_chars is_upper_hex_colon u = true /\
                   (all_chars is_upper_hex_colon v = true -> u = v)
               | _, _ => False
               end) fps out.
Proof.
  intros Hhex. eexists. split; [reflexivity|].
  induction fps as [|f fps IH]; simpl; constructor.
  - apply andb_true_iff in Hhex as [Hf _]. split; [done|]. simpl.
    unfold hex_fingerprint in Hf.
    destruct (fp_value f) as [v|]; simpl; [|done].
    split; [apply toUpperCase_length|].
    split; [by apply toUpperCase_hex|]. apply toUpperCase_upper.
  - apply IH. by apply andb_true_iff in Hhex as [_ ?].
Qed.

End FingerprintFacts.

(** ** Concrete runs *)

Section Examples.
Local Existing Instance scripted_handler.
Local Existing Instance plain_ortc.

Example queue_trace :
  AwaitQueue.run AwaitQueue.empty
    [AwaitQueue.Push 1%nat; AwaitQueue.Push 2%nat; AwaitQueue.Settle true;
     AwaitQueue.Push 3%nat; AwaitQueue.Stop; AwaitQueue.Settle false;
     AwaitQueue.Push 4%nat] =
  ({| AwaitQueue.waiting := []; AwaitQueue.running := None;
      AwaitQueue.stopped := true |},
   [AwaitQueue.Begin 1%nat; AwaitQueue.End 1%nat true; AwaitQueue.Begin 2%nat;
    AwaitQueue.RejectStopped 3%nat; AwaitQueue.End 2%nat false;
    AwaitQueue.RejectStopped 4%nat]).
Proof. reflexivity. Qed.

Example probator_retried_after_failure :
  let w := fresh_world recv [true; false; true; true] in
  let w' := run_tasks [TConsume "c1" "video" 1%positive JsUndefined;
                       TConsume "c2" "video" 1%positive JsUndefined;
                       TConsume "c3" "video" 1%positive JsUndefined] w in
  log w' =
    [Call (HReceive [{| trackId := "c1"; ro_kind := "video";
                        ro_rtpParameters := 1%positive;
                        ro_streamId := JsUndefined |}]) true;
     Call (HReceive [probator_options 2%positive]) false;
     Call (HReceive [{| trackId := "c2"; ro_kind := "video";
                        ro_rtpParameters := 1%positive;
                        ro_streamId := JsUndefined |}]) true;
     Call (HReceive [probator_options 3%positive]) true;
     Call (HReceive [{| trackId := "c3"; ro_kind := "video";
                        ro_rtpParameters := 1%positive;
                        ro_streamId := JsUndefined |}]) true] /\
  _probatorConsumerCreated (this w') = true.
Proof. vm_compute. split; reflexivity. Qed.

(** A value raised three times in a row is notified once, and a value
    raised after [close()] is stored without notification. *)
Example repeated_raise_notifies_once :
  let w := fresh_world send [] in
  let w' := react_all [RaiseConnectionStateChange ConnConnecting;
                       RaiseConnectionStateChange ConnConnecting;
                       RaiseConnectionStateChange ConnConnecting;
                       DoClose;
                       RaiseConnectionStateChange ConnFailed] w in
  filter is_notification (since w w') =
    [Emit_connectionstatechange ConnConnecting] /\
  _connectionState (this w') = ConnFailed.
Proof. vm_compute. split; reflexivity. Qed.

(** The command of [produce()] runs and the adapter's [send] fails: the
    promise rejects with the adapter's failure, and the track is
    stopped after the call. *)
Example failed_send_stops_track :
  let w := fresh_world send [false] in
  let p := {| p_task := TProduce camera JsUndefined JsUndefined JsUndefined;
              p_catch := StopTrackCatch (JsBool true) camera |} in
  let w1 := snd (produce (camera_options JsUndefined) w) in
  fst (produce (camera_options JsUndefined) w) = Ok p /\
  fst (settle p Executed w1) = Throw (HandlerFailure "scripted failure") /\
  since w1 (snd (settle p Executed w1)) =
    [Call (HSend {| so_track := camera; so_encodings := JsUndefined;
                    so_codecOptions := JsUndefined;
                    so_codec := JsUndefined |}) false;
     Track_stop camera].
Proof. vm_compute. repeat split. Qed.

(** The claim C2 as stated fails: the first video consume reaches the
    adapter, the adapter fails its receive, and no probe stream is asked
    for; the marker stays unset. *)
Lemma first_video_consume_failing_at_adapter_asks_no_probe :
  let w := fresh_world recv [false] in
  let p := {| p_task := TConsume "c1" "video" 2%positive JsUndefined;
              p_catch := NoCatch |} in
  let w1 := snd (consume video_consumer w) in
  let w2 := snd (settle p Executed w1) in
  fst (consume video_consumer w) = Ok p /\
  fst (settle p Executed w1) = Throw (HandlerFailure "scripted failure") /\
  since w1 w2 =
    [Call (HReceive [{| trackId := "c1"; ro_kind := "video";
                        ro_rtpParameters := 2%positive;
                        ro_streamId := JsUndefined |}]) false] /\
  filter is_probe_request (log w2) = [] /\
  _probatorConsumerCreated (this w2) = false.
Proof. vm_compute. repeat split. Qed.

Lemma probator_witness :
  "c1" <> "probator" /\
  Forall ordinary_consume [TConsume "c2" "video" 1%positive JsUndefined] /\
  let w := fresh_world recv [true; false; true; true] in
  let w' := snd (run_task (TConsume "c1" "video" 1%positive JsUndefined) w) in
  let w'' := run_tasks [TConsume "c2" "video" 1%positive JsUndefined] w' in
  length (filter is_probe_confirmed (since w w'')) =
    (if _probatorConsumerCreated (this w) then 0
     else if _probatorConsumerCreated (this w'') then 1 else 0)%nat.
Proof.
  assert (Hid : "c1" <> "probator") by (apply String.eqb_neq; reflexivity).
  assert (Hts : Forall ordinary_consume
                  [TConsume "c2" "video" 1%positive JsUndefined]).
  { constructor; [|constructor]. apply String.eqb_neq. reflexivity. }
  split; [exact Hid|]. split; [exact Hts|].
  exact (proj1 (proj2 (proj2 (proj2 (proj2 (proj2
    (probator_requested_once_own_receive_succeeds
       (fresh_world recv [true; false; true; true])
       "c1" "video" 1%positive JsUndefined
       [TConsume "c2" "video" 1%positive JsUndefined] Hid Hts))))))).
Defined.

(** The claim C3 as stated fails: after [close()] the connection state is
    closed, and a connection state raised by the adapter afterwards
    replaces it. *)
Lemma adapter_event_after_close_moves_state :
  let w := snd (close (fresh_world send [])) in
  let w' := snd (on_connectionstatechange ConnFailed w) in
  _closed (this w) = true /\
  _connectionState (this w) = ConnClosed /\
  _connectionState (this w') = ConnFailed.
Proof. vm_compute. repeat split. Qed.

Lemma after_close_witness :
  let w := snd (close (fresh_world send [])) in
  let l := [RaiseConnectionStateChange ConnClosed; DoClose;
            RaiseIceGatheringStateChange IceComplete] in
  _closed (this w) = true /\
  _connectionState (this (react_all l w)) =
    last_raised l (_connectionState (this w)).
Proof.
  intros w l.
  assert (Hc : _closed (this w) = true) by reflexivity.
  split; [exact Hc|].
  exact (proj1 (proj2 (proj2 (after_close_state_follows_adapter l w Hc)))).
Defined.

(** The claim C4 as stated fails: [close()] assigns a connection state
    that differs from the one before, and no notification is emitted. *)
Lemma close_changes_state_without_notification :
  let w := fresh_world send [] in
  let w' := react_all [DoClose] w in
  _connectionState (this w) = ConnNew /\
  _connectionState (this w') = ConnClosed /\
  filter is_notification (since w w') = [].
Proof. vm_compute. repeat split. Qed.


(** The claim C6 as stated fails: the adapter's [close] throws and the
    failure reaches the caller of [close()]. *)
Lemma adapter_failure_reaches_caller_of_close :
  let w := fresh_world send [false] in
  fst (close w) = Throw (HandlerFailure "scripted failure") /\
  _closed (this (snd (close w))) = true /\
  _connectionState (this (snd (close w))) = ConnNew /\
  log (snd (close w)) = [Call HClose false].
Proof. vm_compute. repeat split. Qed.

(** The claim C8 as stated fails: [produce()] fails in its checks, with
    [stopTracks] at its default, and the track is not stopped. *)
Lemma preflight_failure_leaves_track_running :
  let w := new_World (@nil bool)
                     (new_Transport send sctp_enabled (JsObject [])
                                    {[ "audio" := true ]}) ∅ in
  or_default (stopTracks (camera_options JsUndefined)) (JsBool true) = JsBool true /\
  produce (camera_options JsUndefined) w =
    (Throw (UnsupportedError "cannot produce video"), w) /\
  filter is_track_stop (log w) = [].
Proof. vm_compute. repeat split. Qed.

(** The claim C9 as stated fails: a lifetime limit of 0 is given and
    [ordered] reaches the adapter as true. *)
Lemma zero_limit_leaves_ordered :
  let w := fresh_world send [] in
  let p := {| p_task := TProduceData (JsBool true) (JsNumber 0) JsUndefined
                                     (JsString "") (JsString "");
              p_catch := NoCatch |} in
  let w1 := snd (produceData (data_options (JsNumber 0)) w) in
  fst (produceData (data_options (JsNumber 0)) w) = Ok p /\
  since w1 (snd (run_task (p_task p) w1)) =
    [Call (HSendDataChannel
             {| ordered := JsBool true; maxPacketLifeTime := JsNumber 0;
                maxRetransmits := JsUndefined;
                sd_label := JsString ""; sd_protocol := JsString "" |}) true].
Proof. vm_compute. repeat split. Qed.

Lemma produceData_witness :
  let w := fresh_world send [] in
  let o := data_options (JsNumber 3000) in
  let p := {| p_task := TProduceData (JsBool false) (JsNumber 3000) JsUndefined
                                     (JsString "") (JsString "");
              p_catch := NoCatch |} in
  produceData o w = (Ok p, snd (produceData o w)) /\
  p_task p = TProduceData (JsBool false) (JsNumber 3000) JsUndefined
                          (JsString "") (JsString "").
Proof.
  intros w o p.
  assert (Hp : produceData o w = (Ok p, snd (produceData o w))) by reflexivity.
  split; [exact Hp|].
  exact (proj1 (produceData_ordered_unless_truthy_limit o w _ p Hp)).
Defined.

Lemma scripted_handler_keeps (l : loc) : handler_keeps l.
Proof. intros c [|[] script] hp _; reflexivity. Defined.

Lemma caller_object_witness :
  let w := fresh_world recv [] in
  handler_keeps 1%positive /\
  is_Some (heap w !! 1%positive) /\
  heap (snd (consume video_consumer w)) !! 1%positive = heap w !! 1%positive.
Proof.
  intros w.
  assert (Hs : is_Some (heap w !! 1%positive)) by (eexists; reflexivity).
  split; [apply scripted_handler_keeps|]. split; [exact Hs|].
  exact (proj1 (proj1 (consume_and_consumeData_keep_caller_object
                         1%positive w (scripted_handler_keeps 1%positive) Hs)
                      video_consumer)).
Defined.


(** *** Instances of the further properties *)

Lemma no_sctp_witness :
  let w := new_World (@nil bool)
             (new_Transport send JsUndefined (JsObject []) both_kinds) ∅ in
  truthy JsUndefined && truthy (prop JsUndefined "maxMessageSize") = false /\
  exists e,
    produceData (data_options JsUndefined) w = (Throw e, w) /\
    (failure_class e = Some Closed \/ failure_class e = Some Unsupported).
Proof.
  intros w. split; [reflexivity|].
  exact (proj1 (no_sctp_no_data_channels w send JsUndefined (JsObject [])
                  both_kinds eq_refl eq_refl) (data_options JsUndefined)).
Defined.

Lemma stats_witness :
  let w := fresh_world send [false] in
  enqueues (IGetProducerStats "local-1") = false /\
  since w (snd (invoke (IGetProducerStats "local-1") w)) =
    [Call (HGetSenderStats "local-1") false].
Proof.
  intros w. split; [reflexivity|].
  destruct (stats_bypass_queue (IGetProducerStats "local-1") w eq_refl)
    as (c & Hc & _ & Ho).
  destruct (Ho eq_refl) as (Hs & _ & _).
  injection Hc as <-. exact Hs.
Defined.

Lemma lifecycle_witness :
  let w := fresh_world send [] in
  let p := {| p_task := TPauseProducer "local-1"; p_catch := NoCatch |} in
  let w2 := fresh_world send [false] in
  lifecycle_call (IPauseProducer "local-1") = Some (HPauseSending "local-1") /\
  invoke (IPauseProducer "local-1") w =
    (Ok (Submitted p), snd (invoke (IPauseProducer "local-1") w)) /\
  since w2 (snd (settle p Executed w2)) = [Call (HPauseSending "local-1") false].
Proof.
  intros w p w2. split; [reflexivity|]. split; [reflexivity|].
  exact (proj1 (lifecycle_operation_is_one_adapter_call
                  (IPauseProducer "local-1") (HPauseSending "local-1")
                  w _ p eq_refl eq_refl w2)).
Defined.

Lemma copy_witness :
  let w := fresh_world recv [] in
  let p := {| p_task := TConsume "c1" "video" 2%positive JsUndefined;
              p_catch := NoCatch |} in
  consume video_consumer w = (Ok p, snd (consume video_consumer w)) /\
  exists id kind l',
    p_task p = TConsume id kind l' (c_streamId video_consumer) /\
    (l' ∉ dom (heap w)) /\
    heap (snd (consume video_consumer w)) !! l' =
      Some (snd (canReceive (heap w !!! c_rtpParameters video_consumer)
                            (_extendedRtpCapabilities (this w)))) /\
    forall l, l <> l' ->
              heap (snd (consume video_consumer w)) !! l = heap w !! l.
Proof.
  intros w p.
  assert (Hp : consume video_consumer w =
               (Ok p, snd (consume video_consumer w))) by reflexivity.
  split; [exact Hp|].
  exact (consume_command_holds_a_copy video_consumer w _ p Hp).
Defined.

Lemma fingerprints_witness :
  let fps := [ {| fp_algorithm := Some "sha-256"; fp_value := Some "ab:0F:9c" |};
               {| fp_algorithm := Some "sha-1"; fp_value := None |} ] in
  forallb hex_fingerprint fps = true /\
  fingerprints (Some fps) =
    Ok [ {| fp_algorithm := Some "sha-256"; fp_value := Some "AB:0F:9C" |};
         {| fp_algorithm := Some "sha-1"; fp_value := None |} ] /\
  exists out,
    fingerprints (Some fps) = Ok out /\
    Forall2 (fun f g =>
               fp_algorithm g = fp_algorithm f /\
               match fp_value f, fp_value g with
               | None, None => True
               | Some v, Some u =>
                   String.length u = String.length v /\
                   all_chars is_upper_hex_colon u = true /\
                   (all_chars is_upper_hex_colon v = true -> u = v)
               | _, _ => False
               end) fps out.
Proof.
  intros fps. split; [reflexivity|]. split; [reflexivity|].
  exact (fingerprints_upper_case fps eq_refl).
Defined.

Lemma submits_witness :
  let w := fresh_world send [] in
  lifecycle_call (IRestartIce JsNull) = Some (HRestartIce JsNull) /\
  enqueues (IRestartIce JsNull) = true /\
  invoke (IRestartIce JsNull) w = (Throw (TypeError "missing iceParameters"), w) /\
  argument_given (IRestartIce JsNull) = false /\
  failure_class (TypeError "missing iceParameters") = Some BadArgument.
Proof.
  intros w. split; [reflexivity|]. split; [reflexivity|].
  split; [reflexivity|].
  exact (lifecycle_operation_submits_iff (IRestartIce JsNull)
           (HRestartIce JsNull) w eq_refl eq_refl).
Defined.


End Examples.
